(** * Federated dataset search: query composition and worker pools

    A shallow embedding of
    [bento_federation_service/search/dataset_search/dataset_search.py]:
    the join-query builder, the resolve augmenter, the array-resolve-path
    collector, the join/data-type query combination, the two worker pools
    and the orchestrator [run_search_on_dataset].

    Python values that travel through the module (queries, JSON bodies) are
    embedded as the inductive type [value]; Python exceptions as the error
    monad [result]; dictionaries whose iteration order is observable as
    association lists, the others as [gmap]; sets as [gset]. *)

From stdpp Require Import gmap strings list fin_maps.
From Stdlib Require Import ZArith.

Open Scope string_scope.
Open Scope list_scope.
Set Warnings "-register-all".

(** ** Python values *)

(** JSON-shaped Python values. [VInt] stands for JSON numbers; [VDict] keeps
    the insertion order of its keys, as a Python [dict] does. *)
Inductive value : Type :=
| VNone
| VBool (b : bool)
| VInt (z : Z)
| VStr (s : string)
| VList (l : list value)
| VDict (d : list (string * value)).

(** Structural induction that also covers the values nested in lists and
    dictionaries. *)
Section ValueInd.
Variable P : value → Prop.
Hypothesis HNone : P VNone.
Hypothesis HBool : ∀ b, P (VBool b).
Hypothesis HInt : ∀ z, P (VInt z).
Hypothesis HStr : ∀ s, P (VStr s).
Hypothesis HList : ∀ l, Forall P l → P (VList l).
Hypothesis HDict : ∀ d, Forall (λ kv, P kv.2) d → P (VDict d).

Fixpoint value_nested_ind (v : value) : P v :=
  match v with
  | VNone => HNone
  | VBool b => HBool b
  | VInt z => HInt z
  | VStr s => HStr s
  | VList l =>
      HList l ((fix go (l : list value) : Forall P l :=
                  match l with
                  | [] => Forall_nil_2 P
                  | x :: l' => Forall_cons_2 P x l' (value_nested_ind x) (go l')
                  end) l)
  | VDict d =>
      HDict d ((fix go (d : list (string * value)) : Forall (λ kv, P kv.2) d :=
                  match d with
                  | [] => Forall_nil_2 _
                  | kv :: d' =>
                      Forall_cons_2 (λ kv, P kv.2) kv d'
                        (value_nested_ind kv.2) (go d')
                  end) d)
  end.
End ValueInd.

(** ** Exceptions *)

Inductive exn : Type :=
| TypeError
| KeyError
| IndexError
| AttributeError
| PeerFetchError.

Inductive result (A : Type) : Type :=
| Ok (a : A)
| Raise (e : exn).
Arguments Ok {A} a.
Arguments Raise {A} e.

Definition bind {A B} (m : result A) (k : A → result B) : result B :=
  match m with
  | Ok a => k a
  | Raise e => Raise e
  end.

Notation "'do' x <- m ; k" := (bind m (λ x, k))
  (at level 10, x name, m at level 100, k at level 200).

(** A list display [[*(f(q) for q in qs)]]: the elements are computed from
    left to right and the first exception escapes. *)
Definition for_each {A B} (f : A → result B) : list A → result (list B) :=
  fix go (l : list A) : result (list B) :=
    match l with
    | [] => Ok []
    | x :: l' => do y <- f x; do ys <- go l'; Ok (y :: ys)
    end.

Definition returns {A} (m : result A) : Prop := ∃ a, m = Ok a.

(** ** Python primitives used by the module *)

(** [v == s] for a string literal [s]: only a [str] compares equal. *)
Definition py_eq_str (v : value) (s : string) : bool :=
  match v with
  | VStr s' => String.eqb s' s
  | _ => false
  end.

(** [len(v)] *)
Definition py_len (v : value) : result nat :=
  match v with
  | VStr s => Ok (String.length s)
  | VList l => Ok (length l)
  | VDict d => Ok (length d)
  | VNone | VBool _ | VInt _ => Raise TypeError
  end.

(** [v[0]]; a dictionary decoded from JSON has string keys only, so the
    integer key is missing. *)
Definition py_item0 (v : value) : result value :=
  match v with
  | VStr (String c _) => Ok (VStr (String c EmptyString))
  | VStr EmptyString => Raise IndexError
  | VList (x :: _) => Ok x
  | VList [] => Raise IndexError
  | VDict _ => Raise KeyError
  | VNone | VBool _ | VInt _ => Raise TypeError
  end.

(** Truth value of [if v]. *)
Definition truthy (v : value) : bool :=
  match v with
  | VNone => false
  | VBool b => b
  | VInt z => negb (z =? 0)%Z
  | VStr s => negb (String.eqb s "")
  | VList l => negb (Nat.eqb (length l) 0)
  | VDict d => negb (Nat.eqb (length d) 0)
  end.

(** [v is True] *)
Definition is_True (v : value) : bool :=
  match v with
  | VBool true => true
  | _ => false
  end.

(** [v is None] *)
Definition is_None (v : value) : bool :=
  match v with
  | VNone => true
  | _ => false
  end.

(** ** Join query synthesis *)

Definition FieldSpec : Type := list string.
Definition DataTypeAndField : Type := string * FieldSpec.
Definition DictOfDataTypesAndFields : Type := list DataTypeAndField.
Definition LinkedFieldSetList : Type := list DictOfDataTypesAndFields.

Definition item_marker : string := "[item]".

Definition _linked_fields_to_join_query_fragment
    (field_1 field_2 : DataTypeAndField) : value :=
  VList [VStr "#eq";
         VList (VStr "#resolve" :: VStr field_1.1 :: VStr item_marker
                  :: map VStr field_1.2);
         VList (VStr "#resolve" :: VStr field_2.1 :: VStr item_marker
                  :: map VStr field_2.2)].

Fixpoint _linked_field_set_to_join_query_rec
    (pairs : list (DataTypeAndField * DataTypeAndField)) : result value :=
  match pairs with
  | [] => Raise IndexError
  | [p] => Ok (_linked_fields_to_join_query_fragment p.1 p.2)
  | p :: (_ :: _) as rest =>
      do r <- _linked_field_set_to_join_query_rec rest;
      Ok (VList [VStr "#and"; _linked_fields_to_join_query_fragment p.1 p.2; r])
  end.

(** [itertools.combinations(l, 2)] *)
Fixpoint combinations2 {A} (l : list A) : list (A * A) :=
  match l with
  | [] => []
  | x :: xs => map (pair x) xs ++ combinations2 xs
  end.

Definition surviving_pairs (fields : DictOfDataTypesAndFields)
    (data_type_set : gset string)
    : list (DataTypeAndField * DataTypeAndField) :=
  filter (λ p, p.1.1 ∈ data_type_set ∧ p.2.1 ∈ data_type_set)
         (combinations2 fields).

Fixpoint _linked_field_sets_to_join_query
    (linked_field_sets : LinkedFieldSetList) (data_type_set : gset string)
    : result value :=
  match linked_field_sets with
  | [] => Ok VNone
  | first :: rest =>
      let pairs := surviving_pairs first data_type_set in
      if Nat.eqb (length pairs) 0 then Ok VNone
      else if Nat.eqb (length linked_field_sets) 1
      then _linked_field_set_to_join_query_rec pairs
      else
        do a <- _linked_field_set_to_join_query_rec pairs;
        do b <- _linked_field_sets_to_join_query rest data_type_set;
        Ok (VList [VStr "#and"; a; b])
  end.

(** ** Resolve augmentation *)

Fixpoint _augment_resolves (query : value) (prefix : list string)
    : result value :=
  match query with
  | VList (head :: operands) =>
      do n <- py_len head;
      if Nat.eqb n 0 then Ok query
      else
        do c <- py_item0 head;
        if negb (py_eq_str c "#") then Ok query
        else if py_eq_str head "#resolve"
        then Ok (VList (VStr "#resolve" :: map VStr prefix ++ operands))
        else
          do operands' <- for_each (λ q, _augment_resolves q prefix) operands;
          Ok (VList (head :: operands'))
  | _ => Ok query
  end.

(** ** Join / data-type query combination *)

Definition DataTypeQueries : Type := list (string * value).

Fixpoint combine_loop (items : DataTypeQueries) (join_query : value)
    : result value :=
  match items with
  | [] => Ok join_query
  | (dt, q) :: items' =>
      do q' <- _augment_resolves q [dt; item_marker];
      combine_loop items' (VList [VStr "#and"; q'; join_query])
  end.

Definition _combine_join_and_data_type_queries (join_query : value)
    (data_type_queries : DataTypeQueries) : result value :=
  if is_None join_query then Ok VNone
  else combine_loop data_type_queries join_query.

(** ** Array resolve paths *)

Section Collector.
(** [format(v)] as used by the f-string [f"{path}.{ri}"]; for a [str]
    segment it is the segment itself. *)
Variable py_format : value → string.

Fixpoint resolve_loop (segments : list value) (path : string)
    (r : list string) : list string :=
  match segments with
  | [] => r
  | ri :: rest =>
      let r' := if py_eq_str ri item_marker then r ++ [path] else r in
      resolve_loop rest (path +:+ "." +:+ py_format ri) r'
  end.

Fixpoint _get_array_resolve_paths (query : value) : list string :=
  match query with
  | VList (head :: (_ :: _) as operands) =>
      if py_eq_str head "#resolve"
      then resolve_loop operands "_root" []
      else concat (map _get_array_resolve_paths operands)
  | _ => []
  end.
End Collector.

(** The formatter restricted to what the module's own queries contain:
    string segments. *)
Definition format_str (v : value) : string :=
  match v with
  | VStr s => s
  | _ => ""
  end.

(** ** Dataset, tables and peers *)

Record TableOwnership : Type := {
  service_artifact : string;
  table_id : string
}.

(** The table metadata record a peer answers with. *)
Record TableRecord : Type := {
  data_type : string;
  schema : value;
  id : string
}.

Record LinkedFieldSet : Type := { fields : DictOfDataTypesAndFields }.

(** [linked_field_sets] is read with [dataset.get(..., [])]: it may be
    missing. *)
Record Dataset : Type := {
  table_ownership : list TableOwnership;
  linked_field_sets : option (list LinkedFieldSet)
}.

Definition _get_dataset_linked_field_sets (dataset : Dataset)
    : LinkedFieldSetList :=
  map fields
      (filter (λ lfs, 1 < length (fields lfs))
              (default [] (linked_field_sets dataset))).

(** [d[key]] for a string key *)
Fixpoint dict_get (d : list (string * value)) (key : string) : option value :=
  match d with
  | [] => None
  | (k, v) :: d' => if String.eqb k key then Some v else dict_get d' key
  end.

Definition py_getitem (v : value) (key : string) : result value :=
  match v with
  | VDict d =>
      match dict_get d key with
      | Some x => Ok x
      | None => Raise KeyError
      end
  | _ => Raise TypeError
  end.

Fixpoint chars (s : string) : list value :=
  match s with
  | EmptyString => []
  | String c s' => VStr (String c EmptyString) :: chars s'
  end.

(** [cur.extend(it)]: only a list has [extend]; the argument is iterated. *)
Definition py_extend (cur it : value) : result value :=
  match cur with
  | VList l =>
      match it with
      | VList l' => Ok (VList (l ++ l'))
      | VStr s => Ok (VList (l ++ chars s))
      | VDict d => Ok (VList (l ++ map (λ kv, VStr kv.1) d))
      | VNone | VBool _ | VInt _ => Raise TypeError
      end
  | _ => Raise AttributeError
  end.

(** ** Worker pools

    A pool of [workers] coroutines drains a queue.  Each item is handled in
    two parts separated by the one suspension point, the peer fetch: [begin]
    runs up to the fetch (and may finish the item without fetching), [resume]
    runs from the answer to [task_done].  The event loop picks, step by step,
    whether an idle worker dequeues the next item or which suspended item
    gets its answer; a schedule records these picks. *)

Inductive choice : Type :=
| Dequeue
| Complete (i : nat).

Section Pool.
Context {Item Pending St : Type}.
Variable begin : Item → St → St * option Pending.
Variable resume : Pending → St → result St.
Variable workers : nat.

(** [None]: the schedule is not a complete run of the pool on this queue.
    [Some (Raise e)]: a worker raised [e], which the caller meets when it
    awaits the pool. *)
Fixpoint pool_run (sched : list choice) (queue : list Item)
    (pending : list Pending) (st : St) : option (result St) :=
  match sched with
  | [] =>
      match queue, pending with
      | [], [] => Some (Ok st)
      | _, _ => None
      end
  | Dequeue :: sched' =>
      match queue with
      | t :: queue' =>
          if decide (length pending < workers) then
            let '(st', p) := begin t st in
            pool_run sched' queue' (pending ++ option_list p) st'
          else None
      | [] => None
      end
  | Complete i :: sched' =>
      match pending !! i with
      | Some p =>
          match resume p st with
          | Ok st' => pool_run sched' queue (delete i pending) st'
          | Raise e => Some (Raise e)
          end
      | None => None
      end
  end.

(** One worker at a time: every item is finished before the next one is
    dequeued. *)
Fixpoint sequential (queue : list Item) (st : St) : list choice :=
  match queue with
  | [] => []
  | t :: queue' =>
      let '(st', p) := begin t st in
      match p with
      | None => Dequeue :: sequential queue' st'
      | Some p' =>
          match resume p' st' with
          | Ok st'' => Dequeue :: Complete 0 :: sequential queue' st''
          | Raise _ => [Dequeue; Complete 0]
          end
      end
  end.
End Pool.

(** ** The orchestrator and its two pools *)

Record SearchState : Type := {
  st_properties : gmap string value;   (* dataset_object_schema["properties"] *)
  st_results : gmap string value;      (* dataset_results *)
  st_requests : list (string * value)  (* search requests issued so far *)
}.

Record PendingSearch : Type := {
  ps_data_type : string;
  ps_private : bool;
  ps_path : string;
  ps_query : value
}.

Inductive exclusion : Type :=
| ShortCircuit (properties : gmap string value)
| Excluded (properties : gmap string value) (excluded_data_types : gset string).

(** What a call that returns hands back, with the state the caller can
    observe afterwards: the schema object it passed in and the search
    requests that reached peers. *)
Record Outcome : Type := {
  out_properties : gmap string value;
  out_requests : list (string * value);
  out_results : gmap string value;
  out_join_query : value;
  out_ic_paths : list string
}.

Definition array_schema : value := VDict [("type", VStr "array")].

Section Orchestrator.
Variable WORKERS : nat.
(** [peer_fetch] with method GET on a table path, and with method POST on a
    search path with the query of the request body.  The credentials and
    headers are passed through unchanged and left out. *)
Variable peer_get : string → result TableRecord.
Variable peer_post : string → value → result value.
Variable py_format : value → string.

Definition fetch_begin (t : TableOwnership)
    (acc : list (TableOwnership * TableRecord))
    : list (TableOwnership * TableRecord) * option TableOwnership :=
  (acc, Some t).

Definition fetch_resume (t : TableOwnership)
    (acc : list (TableOwnership * TableRecord))
    : result (list (TableOwnership * TableRecord)) :=
  do r <- peer_get ("api/" +:+ service_artifact t +:+ "/tables/" +:+ table_id t);
  Ok (acc ++ [(t, r)]).

Definition _fetch_table_definition_worker :=
  pool_run fetch_begin fetch_resume WORKERS.

Section SearchWorker.
Variable dataset_join_query : value.
Variable data_type_queries : DataTypeQueries.
Variable include_internal_results : bool.

Definition search_begin (table_pair : TableOwnership * TableRecord)
    (st : SearchState) : SearchState * option PendingSearch :=
  let '(table_ownership, table_record) := table_pair in
  let table_data_type := data_type table_record in
  let is_querying_data_type :=
    bool_decide (table_data_type ∈ data_type_queries.*1) in
  let private := negb (is_None dataset_join_query) || include_internal_results in
  let properties :=
    if negb (is_None dataset_join_query)
       && bool_decide (st_properties st !! table_data_type = None)
    then <[table_data_type :=
             VDict [("type", VStr "array");
                    ("items", if is_querying_data_type
                              then schema table_record else VDict [])]]>
           (st_properties st)
    else st_properties st in
  if negb is_querying_data_type
  then ({| st_properties := properties;
           st_results := st_results st;
           st_requests := st_requests st |}, None)
  else
    let path :=
      "api/" +:+ service_artifact table_ownership
        +:+ (if private then "/private" else "") +:+ "/tables"
        +:+ "/" +:+ id table_record +:+ "/search" in
    let query := default VNone (dict_get data_type_queries table_data_type) in
    ({| st_properties := properties;
        st_results := st_results st;
        st_requests := st_requests st ++ [(path, query)] |},
     Some {| ps_data_type := table_data_type;
             ps_private := private;
             ps_path := path;
             ps_query := query |}).

(** From the peer's answer [r] to the update of [dataset_results]. *)
Definition merge_response (p : PendingSearch) (r : value)
    (dataset_results : gmap string value) : result (gmap string value) :=
  do results <-
    (if ps_private p then py_getitem r "results"
     else Ok (if truthy r then VList [r] else VList []));
  match dataset_results !! ps_data_type p with
  | None => Ok (<[ps_data_type p := results]> dataset_results)
  | Some cur =>
      do cur' <- py_extend cur results;
      Ok (<[ps_data_type p := cur']> dataset_results)
  end.

Definition search_resume (p : PendingSearch) (st : SearchState)
    : result SearchState :=
  do r <- peer_post (ps_path p) (ps_query p);
  do results <- merge_response p r (st_results st);
  Ok {| st_properties := st_properties st;
        st_results := results;
        st_requests := st_requests st |}.

Definition _table_search_worker :=
  pool_run search_begin search_resume WORKERS.
End SearchWorker.

(** The loop over the queried data types that have no table. *)
Fixpoint exclusion_loop (items : DataTypeQueries)
    (properties : gmap string value) (excluded_data_types : gset string)
    : exclusion :=
  match items with
  | [] => Excluded properties excluded_data_types
  | (dt, dt_q) :: items' =>
      if negb (is_True dt_q) then ShortCircuit properties
      else exclusion_loop items' (<[dt := array_schema]> properties)
                          ({[dt]} ∪ excluded_data_types)
  end.

Definition table_data_types_of
    (table_ownerships_and_records : list (TableOwnership * TableRecord))
    : gset string :=
  list_to_set (map (λ t, data_type t.2) table_ownerships_and_records).

Definition no_table_items (table_data_types : gset string)
    (data_type_queries : DataTypeQueries) : DataTypeQueries :=
  filter (λ dt2, dt2.1 ∉ table_data_types) data_type_queries.

Definition empty_results (data_type_queries : DataTypeQueries)
    : gmap string value :=
  list_to_map (map (λ dt2, (dt2.1, VList [])) data_type_queries).

(** The schema object is represented by its ["properties"] dictionary, the
    only part the module reads or writes.  [None]: the schedules do not
    describe a run of this call.  [Some (Raise e)]: the call does not return
    normally, because the composition of the query raised or a peer fetch
    failed in a worker.  [Some (Ok o)]: the call returns. *)
Definition run_search_on_dataset
    (discovery_schedule search_schedule : list choice)
    (dataset_object_schema : gmap string value) (dataset : Dataset)
    (join_query : value) (data_type_queries : DataTypeQueries)
    (include_internal_results : bool) : option (result Outcome) :=
  let linked_field_sets := _get_dataset_linked_field_sets dataset in
  match _fetch_table_definition_worker discovery_schedule
          (table_ownership dataset) [] [] with
  | None => None
  | Some (Raise e) => Some (Raise e)
  | Some (Ok table_ownerships_and_records) =>
      let table_data_types := table_data_types_of table_ownerships_and_records in
      match exclusion_loop (no_table_items table_data_types data_type_queries)
              dataset_object_schema ∅ with
      | ShortCircuit properties =>
          Some (Ok {| out_properties := properties;
                      out_requests := [];
                      out_results := empty_results data_type_queries;
                      out_join_query := VNone;
                      out_ic_paths := [] |})
      | Excluded properties excluded_data_types =>
          let composed :=
            do join_query1 <-
              (if is_None join_query
               then _linked_field_sets_to_join_query linked_field_sets
                      (list_to_set data_type_queries.*1 ∖ excluded_data_types)
               else Ok join_query);
            let ic_paths_to_filter :=
              if include_internal_results
              then _get_array_resolve_paths py_format join_query1 else [] in
            do join_query2 <-
              _combine_join_and_data_type_queries join_query1 data_type_queries;
            Ok (join_query2, ic_paths_to_filter) in
          match composed with
          | Raise e => Some (Raise e)
          | Ok (join_query2, ic_paths_to_filter) =>
              match _table_search_worker join_query2 data_type_queries
                      include_internal_results search_schedule
                      table_ownerships_and_records []
                      {| st_properties := properties;
                         st_results := ∅;
                         st_requests := [] |} with
              | None => None
              | Some (Raise e) => Some (Raise e)
              | Some (Ok st) =>
                  Some (Ok {| out_properties := st_properties st;
                              out_requests := st_requests st;
                              out_results := st_results st;
                              out_join_query := join_query2;
                              out_ic_paths := ic_paths_to_filter |})
              end
          end
      end
  end.
End Orchestrator.

(** ** Vocabulary of the properties *)

(** Every list node has a string or a list as its head (the empty list has
    no head): the heads the guard of [_augment_resolves] can measure. *)
Fixpoint heads_sized (v : value) : bool :=
  match v with
  | VList (head :: operands) =>
      match head with
      | VStr _ | VList _ => forallb heads_sized operands
      | _ => false
      end
  | _ => true
  end.

(** The paths of all resolve nodes occurring in a value. *)
Fixpoint resolve_nodes (v : value) : list (list value) :=
  match v with
  | VList (head :: operands) =>
      (if py_eq_str head "#resolve" then [operands] else [])
        ++ resolve_nodes head ++ concat (map resolve_nodes operands)
  | _ => []
  end.

(** Each element of a list together with the elements before it. *)
Fixpoint splits {A} (l : list A) : list (list A * A) :=
  match l with
  | [] => []
  | x :: l' => ([], x) :: map (λ ps, (x :: ps.1, ps.2)) (splits l')
  end.

(** [path] extended by [segments], dot-separated. *)
Definition dotted (py_format : value → string) (path : string)
    (segments : list value) : string :=
  fold_left (λ p ri, p +:+ "." +:+ py_format ri) segments path.

(** For each marker of a resolve path, the dotted string of everything
    before it. *)
Definition marker_paths (py_format : value → string) (segments : list value)
    : list string :=
  map (λ ps, dotted py_format "_root" ps.1)
      (filter (λ ps, py_eq_str ps.2 item_marker = true) (splits segments)).

(** Every entry of the accumulator is a list. *)
Definition lists_only (dataset_results : gmap string value) : Prop :=
  ∀ dt cur, dataset_results !! dt = Some cur → ∃ l, cur = VList l.

(** The entry of a data type read as a list, empty when the key is absent. *)
Definition entry (dataset_results : gmap string value) (dt : string)
    : list value :=
  match dataset_results !! dt with
  | Some (VList l) => l
  | _ => []
  end.

(** The path of the resolve node built for one entry of a linked field
    set. *)
Definition scoped_path (f : DataTypeAndField) : list value :=
  VStr f.1 :: VStr item_marker :: map VStr f.2.

(** The schema properties after the exclusion loop has passed [items]. *)
Definition with_array_schemas (items : DataTypeQueries)
    (properties : gmap string value) : gmap string value :=
  fold_left (λ m item, <[item.1 := array_schema]> m) items properties.

(** ** A small deployment on which the statements are exercised *)

Definition demo_ownership : TableOwnership :=
  {| service_artifact := "metadata"; table_id := "t1" |}.

Definition demo_table : TableRecord :=
  {| data_type := "A"; schema := VDict [("type", VStr "object")]; id := "t1" |}.

Definition demo_peer_get (path : string) : result TableRecord :=
  if String.eqb path "api/metadata/tables/t1" then Ok demo_table
  else Raise PeerFetchError.

(** The private endpoint answers with a results array, the public one with
    a bare truth value. *)
Definition demo_peer_post (path : string) (query : value) : result value :=
  if String.eqb path "api/metadata/private/tables/t1/search"
  then Ok (VDict [("results", VList [VInt 7])])
  else Ok (VBool true).

Definition demo_dataset : Dataset :=
  {| table_ownership := [demo_ownership];
     linked_field_sets := Some [{| fields := [("A", ["x"]); ("C", ["y"])] |}] |}.

Definition empty_dataset : Dataset :=
  {| table_ownership := []; linked_field_sets := None |}.

Definition outcome_of (r : option (result Outcome)) : Outcome :=
  match r with
  | Some (Ok o) => o
  | _ => {| out_properties := ∅; out_requests := []; out_results := ∅;
            out_join_query := VNone; out_ic_paths := [] |}
  end.

(** One table of data type [A]; [A] and the table-less [C] are queried, [C]
    with the literal [True]; no join query is supplied and internal results
    are requested. *)
Definition demo_run : option (result Outcome) :=
  run_search_on_dataset 1 demo_peer_get demo_peer_post format_str
    [Dequeue; Complete 0] [Dequeue; Complete 0]
    ∅ demo_dataset VNone
    [("A", VList [VStr "#eq"; VList [VStr "#resolve"; VStr "x"]; VInt 1]);
     ("C", VBool true)]
    true.

(** The same deployment with a join query supplied by the caller and only
    [A] queried. *)
Definition demo_join_query : value :=
  VList [VStr "#eq";
         VList [VStr "#resolve"; VStr "A"; VStr "[item]"; VStr "x"];
         VList [VStr "#resolve"; VStr "A"; VStr "[item]"; VStr "ys";
                VStr "[item]"; VStr "z"]].

Definition demo_run_joined : option (result Outcome) :=
  run_search_on_dataset 1 demo_peer_get demo_peer_post format_str
    [Dequeue; Complete 0] [Dequeue; Complete 0]
    ∅ demo_dataset demo_join_query
    [("A", VList [VStr "#eq"; VList [VStr "#resolve"; VStr "x"]; VInt 1])]
    true.

(** ** Vocabulary of the pool properties *)

(** The path of the table definition request. *)
Definition table_path (t : TableOwnership) : string :=
  "api/" +:+ service_artifact t +:+ "/tables/" +:+ table_id t.

Definition blank_state : SearchState :=
  {| st_properties := ∅; st_results := ∅; st_requests := [] |}.

(** What the search worker leaves pending for a table: read off
    [search_begin], whose pending part does not depend on the state. *)
Definition pending_of (dataset_join_query : value)
    (data_type_queries : DataTypeQueries) (include_internal_results : bool)
    (table_pair : TableOwnership * TableRecord) : option PendingSearch :=
  (search_begin dataset_join_query data_type_queries include_internal_results
     table_pair blank_state).2.

Definition request_of (p : option PendingSearch) : list (string * value) :=
  match p with
  | Some p' => [(ps_path p', ps_query p')]
  | None => []
  end.




(** A second table, of data type [B], for runs with two workers. *)
Definition demo_ownership_b : TableOwnership :=
  {| service_artifact := "metadata"; table_id := "t2" |}.

Definition demo_table_b : TableRecord :=
  {| data_type := "B"; schema := VDict [("type", VStr "object")]; id := "t2" |}.

Definition demo_peer_get2 (path : string) : result TableRecord :=
  if String.eqb path "api/metadata/tables/t1" then Ok demo_table
  else if String.eqb path "api/metadata/tables/t2" then Ok demo_table_b
  else Raise PeerFetchError.


(** * Properties *)

(** ** The error monad *)

Lemma bind_assoc {A B C} (m : result A) (f : A → result B) (g : B → result C) :
  bind (bind m f) g = bind m (λ a, bind (f a) g).
Proof. by destruct m. Qed.

Lemma bind_Ok_inv {A B} (m : result A) (k : A → result B) b :
  bind m k = Ok b → ∃ a, m = Ok a ∧ k a = Ok b.
Proof. destruct m; simpl; [eauto | discriminate]. Qed.

Lemma for_each_length {A B} (f : A → result B) l l' :
  for_each f l = Ok l' → length l' = length l.
Proof.
  revert l'. induction l as [|x l IH]; intros l' H; simpl in H.
  - by inversion H.
  - apply bind_Ok_inv in H as (y & _ & H).
    apply bind_Ok_inv in H as (ys & Hys & H).
    inversion H; subst. simpl. f_equal. by apply IH.
Qed.

Lemma for_each_returns {A B} (f : A → result B) l :
  Forall (λ x, returns (f x)) l → returns (for_each f l).
Proof.
  induction 1 as [|x l [y Hy] _ [ys Hys]]; simpl.
  - by eexists.
  - rewrite Hy. simpl. rewrite Hys. by eexists.
Qed.

(** An exception of the traversal does not depend on what the element
    function computes on the elements that do not raise. *)
Lemma for_each_raise_ext {A B} (f g : A → result B) l e :
  Forall (λ x, ∀ e, f x = Raise e → g x = Raise e) l →
  Forall (λ x, ∀ e, g x = Raise e → f x = Raise e) l →
  for_each f l = Raise e → for_each g l = Raise e.
Proof.
  intros Hfg Hgf. revert Hgf e.
  induction Hfg as [|x l Hx _ IH]; intros Hgf e H; [done|].
  inversion Hgf as [|? ? Hx' Hl']; subst. simpl in *.
  destruct (f x) as [y|e1] eqn:Hfx.
  - destruct (g x) as [z|e2] eqn:Hgx.
    + simpl in *. destruct (for_each f l) as [ys|e3] eqn:Hfl; [done|].
      simpl in H. inversion H; subst. by rewrite (IH Hl' e).
    + specialize (Hx' e2 eq_refl). congruence.
  - simpl in H. inversion H; subst. by rewrite (Hx e).
Qed.

(** Two traversals in a row are one traversal with the composed function,
    provided the composed function raises only where the first one does. *)
Lemma for_each_compose {A B C} (f : A → result B) (g : B → result C)
    (h : A → result C) l :
  Forall (λ x, bind (f x) g = h x) l →
  Forall (λ x, ∀ e, h x = Raise e → f x = Raise e) l →
  bind (for_each f l) (for_each g) = for_each h l.
Proof.
  intros Hc. induction Hc as [|x l Hx _ IH]; intros Hr; [done|].
  inversion Hr as [|? ? Hrx Hrl]; subst. simpl.
  rewrite <- Hx. destruct (f x) as [y|e] eqn:Hfx; simpl; [|done].
  rewrite bind_assoc. simpl.
  destruct (g y) as [z|e] eqn:Hgy; simpl.
  - rewrite <- (IH Hrl). rewrite bind_assoc.
    by destruct (for_each f l).
  - rewrite <- Hx in Hrx. simpl in Hrx. specialize (Hrx e Hgy). discriminate.
Qed.

(** ** Resolve augmentation *)

Lemma augment_unfold head operands prefix :
  _augment_resolves (VList (head :: operands)) prefix =
  do n <- py_len head;
  if Nat.eqb n 0 then Ok (VList (head :: operands))
  else
    do c <- py_item0 head;
    if negb (py_eq_str c "#") then Ok (VList (head :: operands))
    else if py_eq_str head "#resolve"
    then Ok (VList (VStr "#resolve" :: map VStr prefix ++ operands))
    else
      do operands' <- for_each (λ q, _augment_resolves q prefix) operands;
      Ok (VList (head :: operands')).
Proof. reflexivity. Qed.

Lemma augment_leaf query prefix :
  (∀ l, query ≠ VList l) → _augment_resolves query prefix = Ok query.
Proof. intros H. destruct query; try done. by destruct (H l). Qed.

(** Whether and how [_augment_resolves] raises is decided by the query
    alone, not by the prefix. *)
Lemma augment_raise_prefix query :
  ∀ prefix prefix' e,
    _augment_resolves query prefix = Raise e →
    _augment_resolves query prefix' = Raise e.
Proof.
  induction query as [| | | |l IH|d _] using value_nested_ind;
    intros prefix prefix' e; try done.
  destruct l as [|head operands]; [done|].
  rewrite !augment_unfold.
  destruct (py_len head) as [n|]; simpl; [|done].
  destruct (Nat.eqb n 0); [done|].
  destruct (py_item0 head) as [c|]; simpl; [|done].
  destruct (negb (py_eq_str c "#")); [done|].
  destruct (py_eq_str head "#resolve"); [done|].
  inversion IH as [|? ? _ IHops]; subst.
  destruct (for_each (λ q, _augment_resolves q prefix) operands)
    as [ys|e1] eqn:Hf; simpl; [done|].
  intros [= ->].
  rewrite (for_each_raise_ext (λ q, _augment_resolves q prefix)
             (λ q, _augment_resolves q prefix') operands e);
    [done| | |done].
  - eapply Forall_impl; [exact IHops|]. intros q Hq e'. apply Hq.
  - eapply Forall_impl; [exact IHops|]. intros q Hq e'. apply Hq.
Qed.

Lemma augment_compose query :
  ∀ p1 p2,
    (do q' <- _augment_resolves query p1; _augment_resolves q' p2)
    = _augment_resolves query (p2 ++ p1).
Proof.
  induction query as [| | | |l IH|d _] using value_nested_ind;
    intros p1 p2; try done.
  destruct l as [|head operands]; [done|].
  rewrite (augment_unfold head operands p1), (augment_unfold head operands (p2 ++ p1)).
  destruct (py_len head) as [n|] eqn:Hlen; cbn [bind]; [|done].
  destruct (Nat.eqb n 0) eqn:Hn.
  { cbn [bind]. rewrite augment_unfold, Hlen. cbn [bind]. by rewrite Hn. }
  destruct (py_item0 head) as [c|] eqn:Hitem; cbn [bind]; [|done].
  destruct (negb (py_eq_str c "#")) eqn:Hc.
  { cbn [bind]. rewrite augment_unfold, Hlen. cbn [bind]. rewrite Hn, Hitem. cbn [bind].
    by rewrite Hc. }
  destruct (py_eq_str head "#resolve") eqn:Hres.
  { cbn [bind]. rewrite augment_unfold. cbn [bind].
    by rewrite map_app, <- app_assoc. }
  inversion IH as [|? ? _ IHops]; subst.
  rewrite bind_assoc. cbn [bind].
  rewrite <- (for_each_compose (λ q, _augment_resolves q p1)
                (λ q, _augment_resolves q p2)
                (λ q, _augment_resolves q (p2 ++ p1)) operands).
  - rewrite bind_assoc.
    destruct (for_each (λ q, _augment_resolves q p1) operands) as [ys|]; [|done].
    cbn [bind]. rewrite augment_unfold, Hlen. cbn [bind]. rewrite Hn, Hitem. cbn [bind].
    by rewrite Hc, Hres.
  - eapply Forall_impl; [exact IHops|]. intros q Hq. apply Hq.
  - apply Forall_forall. intros q _ e. apply augment_raise_prefix.
Qed.

Lemma augment_shape head operands prefix q' :
  py_eq_str head "#resolve" = false →
  _augment_resolves (VList (head :: operands)) prefix = Ok q' →
  ∃ operands', q' = VList (head :: operands')
               ∧ length operands' = length operands.
Proof.
  intros Hres. rewrite augment_unfold.
  destruct (py_len head) as [n|]; simpl; [|done].
  destruct (Nat.eqb n 0); [intros [= <-]; eauto|].
  destruct (py_item0 head) as [c|]; simpl; [|done].
  destruct (negb (py_eq_str c "#")); [intros [= <-]; eauto|].
  rewrite Hres. intros H.
  apply bind_Ok_inv in H as (ys & Hys & [= <-]).
  exists ys. split; [done|]. by eapply for_each_length.
Qed.

Lemma heads_sized_returns query :
  ∀ prefix, heads_sized query = true → returns (_augment_resolves query prefix).
Proof.
  induction query as [| | | |l IH|d _] using value_nested_ind;
    intros prefix Hw; try (by eexists).
  destruct l as [|head operands]; [by eexists|].
  inversion IH as [|? ? _ IHops]; subst.
  assert (Hops : forallb heads_sized operands = true
                 ∧ ∃ n c, (py_len head = Ok n)
                          ∧ (n ≠ 0 → py_item0 head = Ok c)).
  { simpl in Hw. destruct head as [| | |s|l|]; try discriminate.
    - split; [done|]. destruct s as [|a s].
      + exists 0, VNone. split; [done|]. done.
      + exists (S (String.length s)), (VStr (String a EmptyString)). done.
    - split; [done|]. destruct l as [|x l].
      + exists 0, VNone. done.
      + exists (S (length l)), x. done. }
  destruct Hops as (Hops & n & c & Hlen & Hitem).
  rewrite augment_unfold, Hlen. simpl.
  destruct (Nat.eqb n 0) eqn:Hn; [by eexists|].
  apply Nat.eqb_neq in Hn. rewrite (Hitem Hn). simpl.
  destruct (negb (py_eq_str c "#")); [by eexists|].
  destruct (py_eq_str head "#resolve"); [by eexists|].
  destruct (for_each_returns (λ q, _augment_resolves q prefix) operands)
    as [ys Hys].
  - apply Forall_forall. intros q Hq.
    rewrite Forall_forall in IHops. apply IHops; [done|].
    rewrite forallb_forall in Hops. apply Hops. by apply list_elem_of_In.
  - rewrite Hys. by eexists.
Qed.

(** C5, as stated, fails: the second prefix is put in front of the first,
    so two applications with [p1] then [p2] differ from one application
    with [p1 ++ p2]. *)
Lemma augment_twice_appended_prefix_fails :
  (do q' <- _augment_resolves (VList [VStr "#resolve"; VStr "x"]) ["a"];
   _augment_resolves q' ["b"])
  ≠ _augment_resolves (VList [VStr "#resolve"; VStr "x"]) (["a"] ++ ["b"]).
Proof. vm_compute. discriminate. Qed.

(** C5 (amended): augmenting with [p1] and then with [p2] is augmenting once
    with [p2 ++ p1], the later prefix in front; this includes the queries on
    which the augmentation raises.  On a list node whose head is not
    ["#resolve"] the augmentation keeps the head (the tag) and the number of
    operands. *)
Theorem augment_twice_prepends :
  (∀ query p1 p2,
     (do q' <- _augment_resolves query p1; _augment_resolves q' p2)
     = _augment_resolves query (p2 ++ p1))
  ∧ (∀ head operands prefix q',
       py_eq_str head "#resolve" = false →
       _augment_resolves (VList (head :: operands)) prefix = Ok q' →
       ∃ operands', q' = VList (head :: operands')
                    ∧ length operands' = length operands).
Proof.
  split.
  - intros query p1 p2. apply augment_compose.
  - intros head operands prefix q'. apply augment_shape.
Qed.

Lemma augment_twice_prepends_witness :
  ∃ operands',
    VList [VStr "#and";
           VList [VStr "#resolve"; VStr "A"; VStr "[item]"; VStr "x"];
           VBool true]
    = VList (VStr "#and" :: operands')
    ∧ length operands' = length [VList [VStr "#resolve"; VStr "x"]; VBool true].
Proof.
  apply (proj2 augment_twice_prepends (VStr "#and")
           [VList [VStr "#resolve"; VStr "x"]; VBool true] ["A"; "[item]"]).
  - reflexivity.
  - reflexivity.
Defined.

(** C6, as stated, fails: a list whose head is a number reaches
    [len(query[0])], which raises. *)
Lemma augment_number_head_raises :
  _augment_resolves (VList [VInt 1; VInt 2]) ["A"; "[item]"] = Raise TypeError
  ∧ ¬ returns (_augment_resolves (VList [VInt 1; VInt 2]) ["A"; "[item]"]).
Proof. split; [reflexivity|]. intros [q Hq]. discriminate. Qed.

(** C6 (amended): [_augment_resolves] returns a value, without raising, on
    every query in which each non-empty list has a string or a list as its
    head; literals, empty lists and nested-list heads are included. *)
Theorem augment_returns_on_sized_heads query prefix :
  heads_sized query = true → returns (_augment_resolves query prefix).
Proof. apply heads_sized_returns. Qed.

Lemma augment_returns_on_sized_heads_witness :
  returns (_augment_resolves
             (VList [VStr "#and"; VList []; VInt 3;
                     VList [VList [VStr "#"]; VBool true];
                     VList [VStr "#resolve"; VStr "x"]])
             ["A"; "[item]"]).
Proof. apply augment_returns_on_sized_heads. reflexivity. Defined.

(** ** Array resolve paths *)

Lemma elem_of_splits {A} (l pre : list A) x :
  (pre, x) ∈ splits l ↔ ∃ post, l = pre ++ x :: post.
Proof.
  revert pre. induction l as [|y l IH]; intros pre; simpl.
  - split; [by intros ?%elem_of_nil|]. intros [post H]. by destruct pre.
  - rewrite elem_of_cons, list_elem_of_fmap. split.
    + intros [[= -> ->]|([pre' x'] & [= -> ->] & Hin)]; [by exists l|].
      apply IH in Hin as [post ->]. by exists post.
    + intros [post H]. destruct pre as [|z pre]; simpl in H.
      * left. by inversion H.
      * right. inversion H; subst. exists (pre, x). split; [done|].
        apply IH. by exists post.
Qed.

Lemma marker_filter_shift (x : value) (l : list (list value * value)) :
  filter (λ ps, py_eq_str ps.2 item_marker = true)
         (map (λ ps, (x :: ps.1, ps.2)) l)
  = map (λ ps : list value * value, (x :: ps.1, ps.2))
        (filter (λ ps, py_eq_str ps.2 item_marker = true) l).
Proof.
  induction l as [|ps l IH]; [done|]. simpl.
  rewrite !filter_cons. simpl. case_decide; simpl; by rewrite IH.
Qed.

Section CollectorFacts.
Variable py_format : value → string.

Lemma resolve_loop_spec segments :
  ∀ path r,
    resolve_loop py_format segments path r
    = r ++ map (λ ps, dotted py_format path ps.1)
               (filter (λ ps, py_eq_str ps.2 item_marker = true)
                       (splits segments)).
Proof.
  induction segments as [|ri rest IH]; intros path r; simpl.
  - by rewrite app_nil_r.
  - rewrite IH, filter_cons, marker_filter_shift. simpl.
    case_decide as Hm.
    + rewrite Hm, <- app_assoc. simpl. by rewrite map_map.
    + apply not_true_is_false in Hm. rewrite Hm. by rewrite map_map.
Qed.

Lemma resolve_node_paths segments :
  _get_array_resolve_paths py_format (VList (VStr "#resolve" :: segments))
  = marker_paths py_format segments.
Proof.
  destruct segments as [|ri rest]; [done|].
  unfold marker_paths. cbn [_get_array_resolve_paths py_eq_str].
  rewrite String.eqb_refl. by rewrite resolve_loop_spec.
Qed.
End CollectorFacts.

(** C2, as stated, fails: an earlier marker stays in the accumulated string,
    so the second path of the spec's second example is
    ["_root.A.[item].x"]. *)
Lemma collect_second_marker_keeps_first :
  _get_array_resolve_paths format_str
    (VList [VStr "#resolve"; VStr "A"; VStr "[item]"; VStr "x";
            VStr "[item]"; VStr "y"])
  ≠ ["_root.A"; "_root.A.x"].
Proof. vm_compute. discriminate. Qed.

(** C2 (amended): on a resolve node the collector yields, for each
    array-item marker of the path and in path order, ["_root"] extended by
    every segment before that marker, earlier markers included; only the
    marker reached is left out.  So the two example queries yield
    [["_root.A"]] and [["_root.A"; "_root.A.[item].x"]]. *)
Theorem collect_resolve_node py_format :
  (∀ s, py_format (VStr s) = s) →
  (∀ segments,
     _get_array_resolve_paths py_format (VList (VStr "#resolve" :: segments))
     = marker_paths py_format segments)
  ∧ _get_array_resolve_paths py_format
      (VList [VStr "#resolve"; VStr "A"; VStr "[item]"; VStr "x"])
    = ["_root.A"]
  ∧ _get_array_resolve_paths py_format
      (VList [VStr "#resolve"; VStr "A"; VStr "[item]"; VStr "x";
              VStr "[item]"; VStr "y"])
    = ["_root.A"; "_root.A.[item].x"].
Proof.
  intros Hfmt. split; [apply resolve_node_paths|].
  split; cbn; rewrite !Hfmt; reflexivity.
Qed.

Lemma collect_resolve_node_witness :
  _get_array_resolve_paths format_str
    (VList [VStr "#resolve"; VStr "A"; VStr "[item]"; VStr "x";
            VStr "[item]"; VStr "y"])
  = ["_root.A"; "_root.A.[item].x"].
Proof.
  apply (collect_resolve_node format_str). intros s. reflexivity.
Defined.

(** ** Join query synthesis *)

Lemma elem_of_combinations2 {A} (l : list A) a b :
  (a, b) ∈ combinations2 l → a ∈ l ∧ b ∈ l.
Proof.
  induction l as [|x xs IH]; simpl; [by intros ?%elem_of_nil|].
  rewrite elem_of_app. intros [Hin|Hin].
  - apply list_elem_of_In, in_map_iff in Hin as (y & [= <- <-] & Hy).
    apply list_elem_of_In in Hy. split; [left|by right].
  - destruct (IH Hin). split; by right.
Qed.

Lemma elem_of_surviving_pairs fields data_type_set p :
  p ∈ surviving_pairs fields data_type_set →
  p.1 ∈ fields ∧ p.2 ∈ fields
  ∧ p.1.1 ∈ data_type_set ∧ p.2.1 ∈ data_type_set.
Proof.
  unfold surviving_pairs. rewrite list_elem_of_filter.
  intros [[H1 H2] Hin]. destruct p as [a b].
  apply elem_of_combinations2 in Hin as [Ha Hb]. done.
Qed.

Lemma join_query_rec_returns pairs :
  pairs ≠ [] → returns (_linked_field_set_to_join_query_rec pairs).
Proof.
  induction pairs as [|p rest IH]; [done|]. intros _.
  destruct rest as [|p' rest]; [by eexists|].
  destruct IH as [r Hr]; [done|].
  change (_linked_field_set_to_join_query_rec (p :: p' :: rest))
    with (do r <- _linked_field_set_to_join_query_rec (p' :: rest);
          Ok (VList [VStr "#and";
                     _linked_fields_to_join_query_fragment p.1 p.2; r])).
  rewrite Hr. by eexists.
Qed.

Lemma join_query_returns linked_field_sets data_type_set :
  returns (_linked_field_sets_to_join_query linked_field_sets data_type_set).
Proof.
  induction linked_field_sets as [|first rest IH]; simpl; [by eexists|].
  destruct (surviving_pairs first data_type_set) as [|p pairs] eqn:Hp;
    [by eexists|].
  destruct (join_query_rec_returns (p :: pairs)) as [a Ha]; [done|].
  simpl length. cbn [Nat.eqb].
  destruct (Nat.eqb (length rest) 0); [by eexists|].
  rewrite Ha. destruct IH as [b Hb]. rewrite Hb. by eexists.
Qed.

Lemma resolve_nodes_strs (l : list string) :
  concat (map resolve_nodes (map VStr l)) = [].
Proof. induction l; [done|]. simpl. done. Qed.

Lemma resolve_nodes_fragment f1 f2 :
  resolve_nodes (_linked_fields_to_join_query_fragment f1 f2)
  = [scoped_path f1; scoped_path f2].
Proof.
  unfold _linked_fields_to_join_query_fragment, scoped_path. simpl.
  by rewrite !resolve_nodes_strs.
Qed.

Lemma resolve_nodes_and a b :
  resolve_nodes (VList [VStr "#and"; a; b])
  = resolve_nodes a ++ resolve_nodes b.
Proof. simpl. by rewrite app_nil_r. Qed.

Lemma join_query_rec_resolve_nodes pairs :
  ∀ q path,
    _linked_field_set_to_join_query_rec pairs = Ok q →
    path ∈ resolve_nodes q →
    ∃ p, p ∈ pairs ∧ (path = scoped_path p.1 ∨ path = scoped_path p.2).
Proof.
  induction pairs as [|p rest IH]; intros q path Hq Hin; [done|].
  destruct rest as [|p' rest].
  - inversion Hq; subst. rewrite resolve_nodes_fragment in Hin.
    exists p. split; [by left|].
    apply elem_of_cons in Hin as [->|Hin]; [by left|].
    apply list_elem_of_singleton in Hin as ->. by right.
  - change (_linked_field_set_to_join_query_rec (p :: p' :: rest))
      with (do r <- _linked_field_set_to_join_query_rec (p' :: rest);
            Ok (VList [VStr "#and";
                       _linked_fields_to_join_query_fragment p.1 p.2; r]))
      in Hq.
    apply bind_Ok_inv in Hq as (r & Hr & [= <-]).
    rewrite resolve_nodes_and, resolve_nodes_fragment in Hin.
    apply elem_of_app in Hin as [Hin|Hin].
    + exists p. split; [by left|].
      apply elem_of_cons in Hin as [->|Hin]; [by left|].
      apply list_elem_of_singleton in Hin as ->. by right.
    + destruct (IH r path Hr Hin) as (p0 & Hp0 & Hpath).
      exists p0. split; [by right|done].
Qed.

Lemma join_query_resolve_nodes linked_field_sets data_type_set :
  ∀ q path,
    _linked_field_sets_to_join_query linked_field_sets data_type_set = Ok q →
    path ∈ resolve_nodes q →
    ∃ fields f,
      fields ∈ linked_field_sets ∧ f ∈ fields ∧ f.1 ∈ data_type_set
      ∧ path = scoped_path f.
Proof.
  induction linked_field_sets as [|first rest IH]; intros q path Hq Hin.
  - inversion Hq; subst. by apply elem_of_nil in Hin.
  - simpl in Hq.
    destruct (Nat.eqb (length (surviving_pairs first data_type_set)) 0);
      [inversion Hq; subst; by apply elem_of_nil in Hin|].
    assert (Hfirst : ∀ a, _linked_field_set_to_join_query_rec
                            (surviving_pairs first data_type_set) = Ok a →
                          path ∈ resolve_nodes a →
                          ∃ fields f, fields ∈ first :: rest ∧ f ∈ fields
                                      ∧ f.1 ∈ data_type_set
                                      ∧ path = scoped_path f).
    { intros a Ha Hpa.
      destruct (join_query_rec_resolve_nodes _ a path Ha Hpa)
        as (p & Hp & Hpath).
      apply elem_of_surviving_pairs in Hp as (H1 & H2 & H3 & H4).
      destruct Hpath as [->| ->]; [exists first, p.1|exists first, p.2];
        (split; [by left|done]). }
    destruct (Nat.eqb (length rest) 0); [by eapply Hfirst|].
    apply bind_Ok_inv in Hq as (a & Ha & Hq).
    apply bind_Ok_inv in Hq as (b & Hb & [= <-]).
    rewrite resolve_nodes_and in Hin.
    apply elem_of_app in Hin as [Hin|Hin]; [by eapply Hfirst|].
    destruct (IH b path Hb Hin) as (fields & f & Hf & Hrest).
    exists fields, f. split; [by right|done].
Qed.

(** When the set after the first one has no surviving pair, the recursion
    returns [None] for it and for everything behind it, and the first set's
    chain is conjoined with that [None]. *)
Lemma join_query_absent_tail first second rest data_type_set :
  surviving_pairs first data_type_set ≠ [] →
  surviving_pairs second data_type_set = [] →
  ∃ chain,
    _linked_field_set_to_join_query_rec (surviving_pairs first data_type_set)
    = Ok chain
    ∧ _linked_field_sets_to_join_query (first :: second :: rest) data_type_set
      = Ok (VList [VStr "#and"; chain; VNone]).
Proof.
  intros Hfirst Hsecond.
  destruct (join_query_rec_returns _ Hfirst) as [chain Hchain].
  exists chain. split; [done|].
  cbn [_linked_field_sets_to_join_query]. rewrite Hsecond, Hchain.
  destruct (surviving_pairs first data_type_set); [done|]. reflexivity.
Qed.

(** C3: the claim holds of the intended builder and fails on the code.  With
    a second linked field set that has no pair inside the data type set, the
    recursive call returns [None] and that [None] is placed as the second
    operand of the conjunction instead of being dropped. *)
Theorem join_query_keeps_absent_operand :
  _linked_field_sets_to_join_query
    [[("A", ["x"]); ("B", ["y"])]; [("A", ["z"]); ("D", ["w"])]]
    {["A"; "B"]}
  = Ok (VList [VStr "#and";
               VList [VStr "#eq";
                      VList [VStr "#resolve"; VStr "A"; VStr "[item]"; VStr "x"];
                      VList [VStr "#resolve"; VStr "B"; VStr "[item]"; VStr "y"]];
               VNone]).
Proof. vm_compute. reflexivity. Qed.

(** C9: every resolve node of a synthesized join query has the path
    [data type, "[item]", field path...] of an entry of one of the linked
    field sets, and that data type belongs to the data type set. *)
Theorem join_query_resolves_are_scoped linked_field_sets data_type_set q path :
  _linked_field_sets_to_join_query linked_field_sets data_type_set = Ok q →
  path ∈ resolve_nodes q →
  ∃ fields dt field,
    fields ∈ linked_field_sets ∧ (dt, field) ∈ fields ∧ dt ∈ data_type_set
    ∧ path = VStr dt :: VStr "[item]" :: map VStr field.
Proof.
  intros Hq Hin.
  destruct (join_query_resolve_nodes _ _ q path Hq Hin)
    as (fields & [dt field] & Hf & Hin' & Hdt & ->).
  by exists fields, dt, field.
Qed.

Lemma join_query_resolves_are_scoped_witness :
  ∃ fields dt field,
    fields ∈ [[("A", ["x"]); ("B", ["y"; "z"]); ("E", ["k"])]]
    ∧ (dt, field) ∈ fields ∧ dt ∈ ({["A"; "B"]} : gset string)
    ∧ [VStr "B"; VStr "[item]"; VStr "y"; VStr "z"]
      = VStr dt :: VStr "[item]" :: map VStr field.
Proof.
  apply (join_query_resolves_are_scoped
           [[("A", ["x"]); ("B", ["y"; "z"]); ("E", ["k"])]] {["A"; "B"]}
           (VList [VStr "#eq";
                   VList [VStr "#resolve"; VStr "A"; VStr "[item]"; VStr "x"];
                   VList [VStr "#resolve"; VStr "B"; VStr "[item]"; VStr "y";
                          VStr "z"]])).
  - vm_compute. reflexivity.
  - simpl. right. left.
Defined.

(** ** Worker pools *)

Section PoolFacts.
Context {Item Pending St : Type}.
Variable begin : Item → St → St * option Pending.
Variable resume : Pending → St → result St.
Variable workers : nat.

(** With at least one worker, handling the items one after the other is a
    complete run. *)
Lemma pool_run_sequential queue :
  0 < workers →
  ∀ st, is_Some (pool_run begin resume workers
                   (sequential begin resume queue st) queue [] st).
Proof.
  intros Hw. induction queue as [|t queue IH]; intros st; simpl; [done|].
  destruct (begin t st) as [st' p] eqn:Hb. destruct p as [p'|].
  - destruct (resume p' st') as [st''|e] eqn:Hr; simpl.
    + rewrite decide_True, Hb by done. simpl. rewrite Hr. apply IH.
    + rewrite decide_True, Hb by done. simpl. by rewrite Hr.
  - simpl. rewrite decide_True, Hb by done. simpl. apply IH.
Qed.

Section Invariant.
Variable Q : Item → Prop.
Variable J : Pending → Prop.
Variable I : St → Prop.
Hypothesis begin_inv :
  ∀ t st st' p, Q t → I st → begin t st = (st', p) →
                I st' ∧ (∀ p', p = Some p' → J p').
Hypothesis resume_inv :
  ∀ p st st', J p → I st → resume p st = Ok st' → I st'.

(** A property of the shared state that each half of the item handling
    preserves holds when the pool has drained its queue, whatever the
    interleaving. *)
Lemma pool_run_invariant sched :
  ∀ queue pending st st',
    Forall Q queue → Forall J pending → I st →
    pool_run begin resume workers sched queue pending st = Some (Ok st') →
    I st'.
Proof.
  induction sched as [|c sched IH]; intros queue pending st st' HQ HJ HI H.
  - simpl in H. destruct queue, pending; try discriminate.
    by inversion H; subst.
  - destruct c as [|i]; simpl in H.
    + destruct queue as [|t queue]; [discriminate|].
      case_decide; [|discriminate].
      destruct (begin t st) as [st1 p] eqn:Hb.
      inversion HQ as [|? ? Ht Hqueue]; subst.
      destruct (begin_inv t st st1 p Ht HI Hb) as [HI1 Hp].
      eapply IH; [exact Hqueue| |exact HI1|exact H].
      apply Forall_app. split; [done|].
      destruct p as [p'|]; simpl; [|done].
      apply Forall_singleton. by apply Hp.
    + destruct (pending !! i) as [p|] eqn:Hi; [|discriminate].
      destruct (resume p st) as [st1|e] eqn:Hr; [|discriminate].
      eapply IH; [exact HQ| | |exact H].
      * by apply Forall_delete.
      * eapply resume_inv; [|exact HI|exact Hr].
        by eapply Forall_lookup_1.
Qed.
End Invariant.
End PoolFacts.

(** ** The exclusion loop *)

Lemma with_array_schemas_lookup items :
  ∀ properties dt,
    with_array_schemas items properties !! dt
    = if decide (dt ∈ items.*1) then Some array_schema else properties !! dt.
Proof.
  induction items as [|[dt0 q0] items IH]; intros properties dt.
  - case_decide as Hin; [by apply elem_of_nil in Hin|done].
  - change (with_array_schemas ((dt0, q0) :: items) properties)
      with (with_array_schemas items (<[dt0 := array_schema]> properties)).
    rewrite IH. rewrite fmap_cons. cbn [fst].
    destruct (decide (dt ∈ items.*1)) as [Hin|Hin].
    + by rewrite decide_True by (by right).
    + destruct (decide (dt = dt0)) as [->|Hne].
      * rewrite decide_True by (by left). apply lookup_insert_eq.
      * rewrite decide_False by (by intros [?|?]%elem_of_cons).
        by apply lookup_insert_ne.
Qed.

Lemma exclusion_loop_all_true items :
  ∀ properties excluded,
    Forall (λ item, is_True item.2 = true) items →
    exclusion_loop items properties excluded
    = Excluded (with_array_schemas items properties)
               (list_to_set items.*1 ∪ excluded).
Proof.
  induction items as [|[dt q] items IH]; intros properties excluded Hall.
  - simpl. by rewrite union_empty_l_L.
  - inversion Hall as [|? ? Hq Hitems]; subst. simpl in Hq. simpl.
    rewrite Hq. simpl. rewrite IH by done. f_equal.
    rewrite (assoc_L (∪)).
    rewrite (comm_L (∪) (list_to_set items.*1) {[dt]}). reflexivity.
Qed.

Lemma exclusion_loop_stops pre dt q post :
  ∀ properties excluded,
    Forall (λ item, is_True item.2 = true) pre →
    is_True q = false →
    exclusion_loop (pre ++ (dt, q) :: post) properties excluded
    = ShortCircuit (with_array_schemas pre properties).
Proof.
  induction pre as [|[dt0 q0] pre IH]; intros properties excluded Hall Hq.
  - simpl. by rewrite Hq.
  - inversion Hall as [|? ? Hq0 Hpre]; subst. simpl in Hq0. simpl.
    rewrite Hq0. simpl. by rewrite IH.
Qed.

(** A list splits at its first element that fails a boolean test. *)
Lemma first_failure {A} (f : A → bool) (l : list A) x :
  x ∈ l → f x = false →
  ∃ pre y post, l = pre ++ y :: post
                ∧ Forall (λ z, f z = true) pre ∧ f y = false.
Proof.
  induction l as [|z l IH]; [by intros ?%elem_of_nil|].
  intros Hin Hx. destruct (f z) eqn:Hz.
  - apply elem_of_cons in Hin as [->|Hin]; [congruence|].
    destruct (IH Hin Hx) as (pre & y & post & -> & Hpre & Hy).
    exists (z :: pre), y, post. split; [done|]. split; [|done].
    by constructor.
  - by exists [], z, l.
Qed.

Lemma elem_of_no_table_items table_data_types data_type_queries item :
  item ∈ no_table_items table_data_types data_type_queries
  ↔ (item.1 ∉ table_data_types) ∧ (item ∈ data_type_queries).
Proof. unfold no_table_items. by rewrite list_elem_of_filter. Qed.

Lemma empty_results_lookup data_type_queries dt :
  empty_results data_type_queries !! dt
  = if decide (dt ∈ data_type_queries.*1) then Some (VList []) else None.
Proof.
  induction data_type_queries as [|[dt0 q0] items IH].
  - case_decide as Hin; [by apply elem_of_nil in Hin|done].
  - assert (Hc : dt ∈ ((dt0, q0) :: items).*1 ↔ dt = dt0 ∨ dt ∈ items.*1)
      by apply elem_of_cons.
    change (empty_results ((dt0, q0) :: items))
      with (<[dt0 := VList []]> (empty_results items)).
    destruct (decide (dt = dt0)) as [->|Hne].
    + rewrite lookup_insert_eq. rewrite decide_True; [done|].
      apply Hc. by left.
    + rewrite lookup_insert_ne by done. rewrite IH.
      destruct (decide (dt ∈ items.*1)) as [Hin|Hin].
      * rewrite decide_True; [done|]. apply Hc. by right.
      * rewrite decide_False; [done|]. by intros [?|?]%Hc.
Qed.

(** ** The search worker *)

Lemma search_begin_spec join_query data_type_queries include table_pair st st' p :
  search_begin join_query data_type_queries include table_pair st = (st', p) →
  st_results st' = st_results st
  ∧ ∀ p', p = Some p' →
          table_pair.2.(data_type) ∈ data_type_queries.*1
          ∧ ps_data_type p' = table_pair.2.(data_type)
          ∧ ps_private p' = negb (is_None join_query) || include
          ∧ ps_path p'
            = "api/" +:+ table_pair.1.(service_artifact)
                +:+ (if ps_private p' then "/private" else "")
                +:+ "/tables" +:+ "/" +:+ table_pair.2.(id) +:+ "/search".
Proof.
  destruct table_pair as [table_ownership table_record].
  unfold search_begin.
  destruct (bool_decide (data_type table_record ∈ data_type_queries.*1))
    eqn:Hq; simpl; intros [= <- <-]; (split; [done|]); [|done].
  intros p' [= <-]. simpl. by apply bool_decide_eq_true in Hq.
Qed.

Lemma merge_response_insert p r dataset_results dataset_results' :
  merge_response p r dataset_results = Ok dataset_results' →
  ∃ v, dataset_results' = <[ps_data_type p := v]> dataset_results.
Proof.
  unfold merge_response. intros H.
  apply bind_Ok_inv in H as (results & _ & H).
  destruct (dataset_results !! ps_data_type p) as [cur|].
  - apply bind_Ok_inv in H as (cur' & _ & [= <-]). eauto.
  - inversion H. eauto.
Qed.

(** In public mode the answer is merged as a list of at most one marker. *)
Lemma merge_response_public p r dataset_results :
  ps_private p = false →
  lists_only dataset_results →
  merge_response p r dataset_results
  = Ok (<[ps_data_type p :=
            VList (entry dataset_results (ps_data_type p)
                     ++ (if truthy r then [r] else []))]> dataset_results).
Proof.
  intros Hpub Hlists. unfold merge_response, entry. rewrite Hpub. simpl.
  destruct (dataset_results !! ps_data_type p) as [cur|] eqn:Hcur.
  - destruct (Hlists _ _ Hcur) as [l ->]. by destruct (truthy r).
  - by destruct (truthy r).
Qed.

Lemma lists_only_insert dataset_results dt l :
  lists_only dataset_results → lists_only (<[dt := VList l]> dataset_results).
Proof.
  intros Hlists dt' cur. destruct (decide (dt = dt')) as [->|Hne].
  - rewrite lookup_insert_eq. intros [= <-]. eauto.
  - rewrite lookup_insert_ne by done. apply Hlists.
Qed.

Lemma entry_insert dataset_results dt l :
  entry (<[dt := VList l]> dataset_results) dt = l.
Proof. unfold entry. by rewrite lookup_insert_eq. Qed.

Lemma search_resume_results peer_post p st st' :
  search_resume peer_post p st = Ok st' →
  ∃ v, st_results st' = <[ps_data_type p := v]> (st_results st).
Proof.
  unfold search_resume. intros H.
  apply bind_Ok_inv in H as (r & _ & H).
  apply bind_Ok_inv in H as (results & Hm & [= <-]). simpl.
  by eapply merge_response_insert.
Qed.

(** C8: a queried table handled in public mode (no join query in effect,
    internal results not requested) is searched on the public endpoint, and
    its answer extends the data type's entry of the accumulator by exactly
    the one marker when it is truthy and by nothing when it is falsy; the
    entry exists afterwards and the other entries are untouched. *)
Theorem public_search_adds_one_marker
    peer_post data_type_queries table_pair st st1 p st2 r :
  search_begin VNone data_type_queries false table_pair st = (st1, Some p) →
  peer_post (ps_path p) (ps_query p) = Ok r →
  lists_only (st_results st2) →
  ∃ st3,
    search_resume peer_post p st2 = Ok st3
    ∧ ps_path p = "api/" +:+ table_pair.1.(service_artifact) +:+ "/tables/"
                    +:+ table_pair.2.(id) +:+ "/search"
    ∧ st_results st3 !! table_pair.2.(data_type)
      = Some (VList (entry (st_results st2) table_pair.2.(data_type)
                       ++ (if truthy r then [r] else [])))
    ∧ length (entry (st_results st3) table_pair.2.(data_type))
      = length (entry (st_results st2) table_pair.2.(data_type))
        + (if truthy r then 1 else 0)
    ∧ (∀ dt, dt ≠ table_pair.2.(data_type) →
             st_results st3 !! dt = st_results st2 !! dt)
    ∧ lists_only (st_results st3).
Proof.
  intros Hb Hr Hlists.
  apply search_begin_spec in Hb as [_ Hp].
  destruct (Hp p eq_refl) as (_ & Hdt & Hpriv & Hpath). simpl in Hpriv.
  rewrite Hpriv in Hpath. simpl in Hpath.
  unfold search_resume. rewrite Hr. simpl.
  rewrite merge_response_public by done. simpl. rewrite Hdt.
  eexists. split; [done|]. simpl.
  split; [done|]. split; [apply lookup_insert_eq|].
  split; [|split].
  - rewrite entry_insert, length_app. by destruct (truthy r).
  - intros dt Hne. by apply lookup_insert_ne.
  - by apply lists_only_insert.
Qed.

Lemma public_search_adds_one_marker_witness :
  ∃ st3,
    search_resume demo_peer_post
      {| ps_data_type := "A"; ps_private := false;
         ps_path := "api/metadata/tables/t1/search"; ps_query := VBool true |}
      {| st_properties := ∅; st_results := ∅; st_requests := [] |}
    = Ok st3
    ∧ st_results st3 !! "A" = Some (VList [VBool true])
    ∧ length (entry (st_results st3) "A") = 1.
Proof.
  destruct (public_search_adds_one_marker demo_peer_post [("A", VBool true)]
              (demo_ownership, demo_table)
              {| st_properties := ∅; st_results := ∅; st_requests := [] |}
              {| st_properties := ∅; st_results := ∅;
                 st_requests := [("api/metadata/tables/t1/search", VBool true)] |}
              {| ps_data_type := "A"; ps_private := false;
                 ps_path := "api/metadata/tables/t1/search";
                 ps_query := VBool true |}
              {| st_properties := ∅; st_results := ∅; st_requests := [] |}
              (VBool true))
    as (st3 & Hrun & _ & Hentry & Hlen & _).
  - reflexivity.
  - reflexivity.
  - intros dt cur H. simpl in H. rewrite lookup_empty in H. discriminate.
  - exists st3. split; [exact Hrun|]. split; [exact Hentry|exact Hlen].
Defined.

(** ** The orchestrator *)

Section RunFacts.
Variable WORKERS : nat.
Variable peer_get : string → result TableRecord.
Variable peer_post : string → value → result value.
Variable py_format : value → string.

Variables discovery_schedule search_schedule : list choice.
Variable dataset_object_schema : gmap string value.
Variable dataset : Dataset.
Variable join_query : value.
Variable data_type_queries : DataTypeQueries.
Variable include_internal_results : bool.

Variable table_ownerships_and_records : list (TableOwnership * TableRecord).
Hypothesis discovered :
  _fetch_table_definition_worker WORKERS peer_get discovery_schedule
    (table_ownership dataset) [] []
  = Some (Ok table_ownerships_and_records).

Let table_data_types := table_data_types_of table_ownerships_and_records.
Let run :=
  run_search_on_dataset WORKERS peer_get peer_post py_format
    discovery_schedule search_schedule dataset_object_schema dataset
    join_query data_type_queries include_internal_results.

Lemma run_short_circuit properties :
  exclusion_loop (no_table_items table_data_types data_type_queries)
    dataset_object_schema ∅ = ShortCircuit properties →
  run = Some (Ok {| out_properties := properties;
                    out_requests := [];
                    out_results := empty_results data_type_queries;
                    out_join_query := VNone;
                    out_ic_paths := [] |}).
Proof.
  intros Hloop. unfold run, run_search_on_dataset.
  rewrite discovered. fold table_data_types. by rewrite Hloop.
Qed.

Lemma run_stops_at_first_offender pre dt q post :
  no_table_items table_data_types data_type_queries = pre ++ (dt, q) :: post →
  Forall (λ item, is_True item.2 = true) pre →
  is_True q = false →
  run = Some (Ok {| out_properties :=
                      with_array_schemas pre dataset_object_schema;
                    out_requests := [];
                    out_results := empty_results data_type_queries;
                    out_join_query := VNone;
                    out_ic_paths := [] |}).
Proof.
  intros Hitems Hpre Hq. apply run_short_circuit.
  rewrite Hitems. by apply exclusion_loop_stops.
Qed.

(** Past the exclusion loop, what the call returns is read off the three
    stages that follow it. *)
Lemma run_stages o :
  Forall (λ item, is_True item.2 = true)
         (no_table_items table_data_types data_type_queries) →
  run = Some (Ok o) →
  ∃ join_query1 st,
    (if is_None join_query
     then _linked_field_sets_to_join_query
            (_get_dataset_linked_field_sets dataset)
            (list_to_set data_type_queries.*1
               ∖ list_to_set (no_table_items table_data_types
                                data_type_queries).*1)
     else Ok join_query) = Ok join_query1
    ∧ _combine_join_and_data_type_queries join_query1 data_type_queries
      = Ok (out_join_query o)
    ∧ out_ic_paths o
      = (if include_internal_results
         then _get_array_resolve_paths py_format join_query1 else [])
    ∧ _table_search_worker WORKERS peer_post (out_join_query o)
        data_type_queries include_internal_results search_schedule
        table_ownerships_and_records []
        {| st_properties :=
             with_array_schemas
               (no_table_items table_data_types data_type_queries)
               dataset_object_schema;
           st_results := ∅;
           st_requests := [] |}
      = Some (Ok st)
    ∧ out_results o = st_results st
    ∧ out_properties o = st_properties st
    ∧ out_requests o = st_requests st.
Proof.
  intros Hall. unfold run, run_search_on_dataset.
  rewrite discovered. fold table_data_types.
  rewrite (exclusion_loop_all_true _ _ _ Hall), union_empty_r_L.
  destruct (if is_None join_query then _ else _) as [join_query1|e];
    cbn [bind]; [|discriminate].
  destruct (_combine_join_and_data_type_queries join_query1 data_type_queries)
    as [join_query2|e] eqn:Hc; cbn [bind]; [|discriminate].
  destruct (_table_search_worker _ _ _ _ _ _ _ _ _) as [[st|e]|] eqn:Hs;
    try discriminate.
  intros [= <-]. exists join_query1, st. simpl. done.
Qed.

Lemma run_ic_paths_empty o :
  include_internal_results = false → run = Some (Ok o) → out_ic_paths o = [].
Proof.
  intros Hinc. unfold run, run_search_on_dataset.
  rewrite discovered, Hinc.
  destruct (exclusion_loop _ _ _) as [properties|properties excluded].
  - by intros [= <-].
  - destruct (if is_None join_query then _ else _) as [join_query1|e];
      cbn [bind]; [|discriminate].
    destruct (_combine_join_and_data_type_queries _ _) as [join_query2|e];
      cbn [bind]; [|discriminate].
    destruct (_table_search_worker _ _ _ _ _ _ _ _ _) as [[st|e]|];
      try discriminate.
    by intros [= <-].
Qed.

(** Only the data types of fetched tables get an entry in the
    accumulator of the search pool. *)
Lemma search_pool_keys dataset_join_query st :
  _table_search_worker WORKERS peer_post dataset_join_query
    data_type_queries include_internal_results search_schedule
    table_ownerships_and_records []
    {| st_properties := with_array_schemas
                          (no_table_items table_data_types data_type_queries)
                          dataset_object_schema;
       st_results := ∅; st_requests := [] |}
  = Some (Ok st) →
  ∀ dt, dt ∉ table_data_types → st_results st !! dt = None.
Proof.
  intros Hrun.
  refine (pool_run_invariant _ _ WORKERS
            (λ pair, pair.2.(data_type) ∈ table_data_types)
            (λ p, ps_data_type p ∈ table_data_types)
            (λ st, ∀ dt, dt ∉ table_data_types → st_results st !! dt = None)
            _ _ search_schedule _ _ _ _ _ _ _ Hrun).
  - intros pair st0 st1 p Hpair Hst Hb.
    apply search_begin_spec in Hb as [Hres Hp]. split.
    + intros dt Hdt. rewrite Hres. by apply Hst.
    + intros p' ->. destruct (Hp p' eq_refl) as (_ & -> & _). done.
  - intros p st0 st1 Hp Hst Hr.
    apply search_resume_results in Hr as [v ->].
    intros dt Hdt. rewrite lookup_insert_ne; [by apply Hst|].
    intros <-. done.
  - apply Forall_forall. intros pair Hpair.
    unfold table_data_types, table_data_types_of.
    apply elem_of_list_to_set, list_elem_of_In, in_map_iff.
    exists pair. split; [done|]. by apply list_elem_of_In.
  - done.
  - intros dt _. apply lookup_empty.
Qed.

(** In public mode every entry the search pool leaves in the accumulator is
    a list. *)
Lemma public_pool_lists_only properties st :
_table_search_worker WORKERS peer_post VNone data_type_queries false
  search_schedule table_ownerships_and_records []
  {| st_properties := properties; st_results := ∅; st_requests := [] |}
= Some (Ok st) →
lists_only (st_results st).
Proof.
intros Hrun.
refine (pool_run_invariant _ _ WORKERS (λ _, True)
          (λ p, ps_private p = false)
          (λ st, lists_only (st_results st))
          _ _ search_schedule _ _ _ _ _ _ _ Hrun).
- intros pair st0 st1 p _ Hst Hb.
  apply search_begin_spec in Hb as [Hres Hp]. split.
  + by rewrite Hres.
  + intros p' ->. by destruct (Hp p' eq_refl) as (_ & _ & -> & _).
- intros p st0 st1 Hp Hst Hr. unfold search_resume in Hr.
  apply bind_Ok_inv in Hr as (r & _ & Hr).
  rewrite merge_response_public in Hr by done.
  simpl in Hr. injection Hr as <-. simpl. by apply lists_only_insert.
- by apply Forall_forall.
- done.
- intros dt cur H. simpl in H. by rewrite lookup_empty in H.
Qed.
End RunFacts.

(** C4, as stated, fails: the early return of the exclusion loop sits inside
    the [try] whose [finally] awaits the table definition workers.  When the
    fetch of a table fails, nothing has been discovered, the queried data
    type [C] has no fetched table and its query [1] is not the literal
    [True], yet the call does not return the empty results: the exception of
    the worker leaves the call. *)
Lemma short_circuit_lost_to_failed_fetch :
  run_search_on_dataset 1 (λ _, Raise PeerFetchError) demo_peer_post
    format_str [Dequeue; Complete 0] [] ∅ demo_dataset VNone
    [("C", VInt 1)] false
  = Some (Raise PeerFetchError).
Proof. vm_compute. reflexivity. Qed.

(** C4 (amended): when the table discovery has completed without a failed
    fetch, and a queried data type has no fetched table and its query is not
    the literal [True], the call returns the accumulator that maps every
    queried data type to the empty list (and has no other key), no join
    query and no array resolve path, whatever tables the other data types
    have, and no search request has been issued. *)
Theorem no_table_query_short_circuits
    WORKERS peer_get peer_post py_format discovery_schedule search_schedule
    dataset_object_schema dataset join_query data_type_queries
    include_internal_results table_ownerships_and_records dt q :
  _fetch_table_definition_worker WORKERS peer_get discovery_schedule
    (table_ownership dataset) [] []
  = Some (Ok table_ownerships_and_records) →
  (dt, q) ∈ data_type_queries →
  dt ∉ table_data_types_of table_ownerships_and_records →
  is_True q = false →
  ∃ o,
    run_search_on_dataset WORKERS peer_get peer_post py_format
      discovery_schedule search_schedule dataset_object_schema dataset
      join_query data_type_queries include_internal_results
    = Some (Ok o)
    ∧ (∀ dt', dt' ∈ data_type_queries.*1 →
              out_results o !! dt' = Some (VList []))
    ∧ (∀ dt', dt' ∉ data_type_queries.*1 → out_results o !! dt' = None)
    ∧ out_join_query o = VNone
    ∧ out_ic_paths o = []
    ∧ out_requests o = [].
Proof.
  intros Hdisc Hin Hdt Hq.
  destruct (first_failure (λ item : string * value, is_True item.2)
              (no_table_items
                 (table_data_types_of table_ownerships_and_records)
                 data_type_queries) (dt, q))
    as (pre & [dt0 q0] & post & Hsplit & Hpre & Hq0); [|done|].
  { by apply elem_of_no_table_items. }
  eexists. split.
  { eapply run_stops_at_first_offender; [exact Hdisc|exact Hsplit|done|done]. }
  simpl. split; [|split; [|done]].
  - intros dt' Hdt'. rewrite empty_results_lookup. by rewrite decide_True.
  - intros dt' Hdt'. rewrite empty_results_lookup. by rewrite decide_False.
Qed.

Lemma no_table_query_short_circuits_witness :
  ∃ o,
    run_search_on_dataset 1 demo_peer_get demo_peer_post format_str
      [Dequeue; Complete 0] [] ∅ demo_dataset VNone
      [("A", VBool true); ("C", VInt 1)] true
    = Some (Ok o)
    ∧ (∀ dt', dt' ∈ [("A", VBool true); ("C", VInt 1)].*1 →
              out_results o !! dt' = Some (VList []))
    ∧ (∀ dt', dt' ∉ [("A", VBool true); ("C", VInt 1)].*1 →
              out_results o !! dt' = None)
    ∧ out_join_query o = VNone
    ∧ out_ic_paths o = []
    ∧ out_requests o = [].
Proof.
  apply (no_table_query_short_circuits 1 demo_peer_get demo_peer_post
           format_str [Dequeue; Complete 0] [] ∅ demo_dataset VNone
           [("A", VBool true); ("C", VInt 1)] true
           [(demo_ownership, demo_table)] "C" (VInt 1)).
  - vm_compute. reflexivity.
  - right. left.
  - apply (bool_decide_unpack _). vm_compute. exact I.
  - reflexivity.
Defined.

(** C10: on the short circuit the schema object of the caller keeps what the
    loop wrote before it stopped: every table-less data type with the
    literal [True] as its query that was iterated before the offending one
    has the bare array schema entry, and the other entries are as the caller
    passed them. *)
Theorem short_circuit_keeps_schema_entries
    WORKERS peer_get peer_post py_format discovery_schedule search_schedule
    dataset_object_schema dataset join_query data_type_queries
    include_internal_results table_ownerships_and_records pre dt q post :
  _fetch_table_definition_worker WORKERS peer_get discovery_schedule
    (table_ownership dataset) [] []
  = Some (Ok table_ownerships_and_records) →
  no_table_items (table_data_types_of table_ownerships_and_records)
    data_type_queries = pre ++ (dt, q) :: post →
  Forall (λ item, is_True item.2 = true) pre →
  is_True q = false →
  ∃ o,
    run_search_on_dataset WORKERS peer_get peer_post py_format
      discovery_schedule search_schedule dataset_object_schema dataset
      join_query data_type_queries include_internal_results
    = Some (Ok o)
    ∧ out_results o = empty_results data_type_queries
    ∧ out_join_query o = VNone
    ∧ out_ic_paths o = []
    ∧ (∀ dt', dt' ∈ pre.*1 → out_properties o !! dt' = Some array_schema)
    ∧ (∀ dt', dt' ∉ pre.*1 →
              out_properties o !! dt' = dataset_object_schema !! dt').
Proof.
  intros Hdisc Hsplit Hpre Hq.
  eexists. split.
  { eapply run_stops_at_first_offender; [exact Hdisc|exact Hsplit|done|done]. }
  simpl. do 3 (split; [done|]). split.
  - intros dt' Hdt'. rewrite with_array_schemas_lookup. by rewrite decide_True.
  - intros dt' Hdt'. rewrite with_array_schemas_lookup. by rewrite decide_False.
Qed.

Lemma short_circuit_keeps_schema_entries_witness :
  ∃ o,
    run_search_on_dataset 1 demo_peer_get demo_peer_post format_str
      [Dequeue; Complete 0] [] ∅ demo_dataset VNone
      [("C", VBool true); ("D", VInt 1); ("A", VBool true)] false
    = Some (Ok o)
    ∧ out_results o
      = empty_results [("C", VBool true); ("D", VInt 1); ("A", VBool true)]
    ∧ out_join_query o = VNone
    ∧ out_ic_paths o = []
    ∧ (∀ dt', dt' ∈ [("C", VBool true)].*1 →
              out_properties o !! dt' = Some array_schema)
    ∧ (∀ dt', dt' ∉ [("C", VBool true)].*1 →
              out_properties o !! dt' = (∅ : gmap string value) !! dt').
Proof.
  apply (short_circuit_keeps_schema_entries 1 demo_peer_get demo_peer_post
           format_str [Dequeue; Complete 0] [] ∅ demo_dataset VNone
           [("C", VBool true); ("D", VInt 1); ("A", VBool true)] false
           [(demo_ownership, demo_table)] [("C", VBool true)] "D" (VInt 1) []).
  - vm_compute. reflexivity.
  - vm_compute. reflexivity.
  - repeat constructor.
  - reflexivity.
Defined.

(** C7, as stated, fails: on the short circuit of the exclusion loop the
    call returns the empty path list although internal results are
    requested and the supplied join query resolves through arrays. *)
Lemma short_circuit_returns_no_paths :
  ∃ o,
    run_search_on_dataset 1 demo_peer_get demo_peer_post format_str
      [Dequeue; Complete 0] [] ∅ demo_dataset demo_join_query
      [("C", VInt 1)] true
    = Some (Ok o)
    ∧ out_ic_paths o = []
    ∧ _get_array_resolve_paths format_str demo_join_query
      = ["_root.A"; "_root.A"; "_root.A.[item].ys"]
    ∧ out_ic_paths o ≠ _get_array_resolve_paths format_str demo_join_query.
Proof.
  eexists. split; [vm_compute; reflexivity|].
  split; [reflexivity|]. split; [reflexivity|].
  vm_compute. discriminate.
Qed.

(** C7 (amended): a call that returns hands back no array resolve path when
    internal results are not requested; when they are requested and the
    call gets past the exclusion loop (no queried data type without table
    has a query other than the literal [True]), the paths are those
    collected from the join query as supplied, or as synthesized when none
    was supplied, and the returned join query is that same query combined
    with the data type queries afterwards. *)
Theorem ic_paths_from_uncombined_join_query
    WORKERS peer_get peer_post py_format discovery_schedule search_schedule
    dataset_object_schema dataset join_query data_type_queries
    include_internal_results table_ownerships_and_records o :
  _fetch_table_definition_worker WORKERS peer_get discovery_schedule
    (table_ownership dataset) [] []
  = Some (Ok table_ownerships_and_records) →
  run_search_on_dataset WORKERS peer_get peer_post py_format
    discovery_schedule search_schedule dataset_object_schema dataset
    join_query data_type_queries include_internal_results
  = Some (Ok o) →
  (include_internal_results = false → out_ic_paths o = [])
  ∧ (Forall (λ item, is_True item.2 = true)
            (no_table_items (table_data_types_of table_ownerships_and_records)
                            data_type_queries) →
     ∃ join_query1,
       (if is_None join_query
        then _linked_field_sets_to_join_query
               (_get_dataset_linked_field_sets dataset)
               (list_to_set data_type_queries.*1
                  ∖ list_to_set
                      (no_table_items
                         (table_data_types_of table_ownerships_and_records)
                         data_type_queries).*1)
        else Ok join_query) = Ok join_query1
       ∧ out_ic_paths o
         = (if include_internal_results
            then _get_array_resolve_paths py_format join_query1 else [])
       ∧ _combine_join_and_data_type_queries join_query1 data_type_queries
         = Ok (out_join_query o)).
Proof.
  intros Hdisc Hrun. split.
  - intros Hinc. by eapply run_ic_paths_empty.
  - intros Hall.
    destruct (run_stages _ _ _ _ _ _ _ _ _ _ _ _ Hdisc o Hall Hrun)
      as (join_query1 & st & Hjq & Hc & Hic & _).
    by exists join_query1.
Qed.

Lemma ic_paths_from_uncombined_join_query_witness :
  out_ic_paths (outcome_of demo_run_joined) = ["_root.A"; "_root.A"; "_root.A.[item].ys"]
  ∧ _combine_join_and_data_type_queries demo_join_query
      [("A", VList [VStr "#eq"; VList [VStr "#resolve"; VStr "x"]; VInt 1])]
    = Ok (out_join_query (outcome_of demo_run_joined)).
Proof.
  destruct (ic_paths_from_uncombined_join_query 1 demo_peer_get demo_peer_post
              format_str [Dequeue; Complete 0] [Dequeue; Complete 0]
              ∅ demo_dataset demo_join_query
              [("A", VList [VStr "#eq"; VList [VStr "#resolve"; VStr "x"];
                            VInt 1])]
              true [(demo_ownership, demo_table)] (outcome_of demo_run_joined))
    as [_ Hpaths].
  - vm_compute. reflexivity.
  - vm_compute. reflexivity.
  - destruct Hpaths as (join_query1 & Hjq & Hic & Hc).
    + vm_compute. constructor.
    + simpl in Hjq. injection Hjq as <-. split; [exact Hic|exact Hc].
Defined.

(** C1: the claim holds of the intended orchestrator and fails on the code.
    A call that gets past the exclusion loop and returns gives no entry of
    the accumulator to a data type without fetched table; such a data type
    was queried with the literal [True], so it is a key of the data type
    queries that is missing from the returned accumulator. *)
Theorem no_table_data_type_missing_from_results
    WORKERS peer_get peer_post py_format discovery_schedule search_schedule
    dataset_object_schema dataset join_query data_type_queries
    include_internal_results table_ownerships_and_records o dt :
  _fetch_table_definition_worker WORKERS peer_get discovery_schedule
    (table_ownership dataset) [] []
  = Some (Ok table_ownerships_and_records) →
  Forall (λ item, is_True item.2 = true)
         (no_table_items (table_data_types_of table_ownerships_and_records)
                         data_type_queries) →
  run_search_on_dataset WORKERS peer_get peer_post py_format
    discovery_schedule search_schedule dataset_object_schema dataset
    join_query data_type_queries include_internal_results
  = Some (Ok o) →
  dt ∈ data_type_queries.*1 →
  dt ∉ table_data_types_of table_ownerships_and_records →
  out_results o !! dt = None.
Proof.
  intros Hdisc Hall Hrun Hdt Hno.
  destruct (run_stages _ _ _ _ _ _ _ _ _ _ _ _ Hdisc o Hall Hrun)
    as (join_query1 & st & _ & _ & _ & Hpool & -> & _).
  by eapply search_pool_keys.
Qed.

Lemma no_table_data_type_missing_from_results_witness :
  out_results (outcome_of demo_run) !! "C" = None.
Proof.
  apply (no_table_data_type_missing_from_results 1 demo_peer_get
           demo_peer_post format_str [Dequeue; Complete 0]
           [Dequeue; Complete 0] ∅ demo_dataset VNone
           [("A", VList [VStr "#eq"; VList [VStr "#resolve"; VStr "x"]; VInt 1]);
            ("C", VBool true)]
           true [(demo_ownership, demo_table)]).
  - vm_compute. reflexivity.
  - vm_compute. repeat constructor.
  - vm_compute. reflexivity.
  - right. left.
  - apply (bool_decide_unpack _). vm_compute. exact I.
Defined.

(** * Further properties of the module *)

(** ** The join query builder *)

Lemma join_query_rec_not_None pairs q :
  _linked_field_set_to_join_query_rec pairs = Ok q → is_None q = false.
Proof.
  destruct pairs as [|p [|p' rest]]; [done|by intros [= <-]|].
  change (_linked_field_set_to_join_query_rec (p :: p' :: rest))
    with (do r <- _linked_field_set_to_join_query_rec (p' :: rest);
          Ok (VList [VStr "#and";
                     _linked_fields_to_join_query_fragment p.1 p.2; r])).
  intros H. by apply bind_Ok_inv in H as (r & _ & [= <-]).
Qed.

Lemma combinations2_length {A} (l : list A) :
  2 * length (combinations2 l) = length l * (length l - 1).
Proof.
  induction l as [|x xs IH]; [done|].
  cbn [combinations2]. rewrite length_app, length_map. simpl length.
  destruct xs as [|y ys]; [done|]. simpl length in *. nia.
Qed.

Lemma combinations2_distinct_keys {A B} (l : list (A * B)) a b :
  NoDup l.*1 → (a, b) ∈ combinations2 l → a.1 ≠ b.1.
Proof.
  induction l as [|x xs IH]; [by intros _ ?%elem_of_nil|].
  rewrite fmap_cons. intros [Hx Hxs]%NoDup_cons. cbn [combinations2].
  rewrite elem_of_app. intros [Hin|Hin]; [|by apply IH].
  apply list_elem_of_In, in_map_iff in Hin as (y & [= <- <-] & Hy).
  intros Heq. apply Hx. rewrite Heq.
  apply list_elem_of_fmap. exists y. split; [done|]. by apply list_elem_of_In.
Qed.

Lemma filter_all {A} (P : A → Prop) `{∀ x, Decision (P x)} (l : list A) :
  Forall P l → filter P l = l.
Proof.
  induction 1 as [|x xs Hx _ IH]; [done|].
  rewrite filter_cons. by rewrite decide_True, IH.
Qed.

Lemma surviving_pairs_all fields (data_type_set : gset string) :
  Forall (λ f, f.1 ∈ data_type_set) fields →
  surviving_pairs fields data_type_set = combinations2 fields.
Proof.
  intros Hall. unfold surviving_pairs.
  assert (Hpairs : Forall (λ p, p.1.1 ∈ data_type_set ∧ p.2.1 ∈ data_type_set)
                          (combinations2 fields)).
  { apply Forall_forall. intros [a b] Hin.
    apply elem_of_combinations2 in Hin as [Ha Hb].
    rewrite Forall_forall in Hall. split; by apply Hall. }
  by apply filter_all.
Qed.

Lemma join_query_rec_resolve_count pairs :
  ∀ q, _linked_field_set_to_join_query_rec pairs = Ok q →
       length (resolve_nodes q) = 2 * length pairs.
Proof.
  induction pairs as [|p rest IH]; intros q Hq; [done|].
  destruct rest as [|p' rest].
  - inversion Hq; subst. by rewrite resolve_nodes_fragment.
  - change (_linked_field_set_to_join_query_rec (p :: p' :: rest))
      with (do r <- _linked_field_set_to_join_query_rec (p' :: rest);
            Ok (VList [VStr "#and";
                       _linked_fields_to_join_query_fragment p.1 p.2; r]))
      in Hq.
    apply bind_Ok_inv in Hq as (r & Hr & [= <-]).
    rewrite resolve_nodes_and, resolve_nodes_fragment, length_app.
    rewrite (IH r Hr). simpl length. lia.
Qed.

(** X1: the builder never raises: the recursion over the pairs, which would
    raise [IndexError] on an empty tuple, is only entered with at least one
    surviving pair. *)
Theorem join_query_never_raises linked_field_sets data_type_set :
  returns (_linked_field_sets_to_join_query linked_field_sets data_type_set)
  ∧ _linked_field_set_to_join_query_rec [] = Raise IndexError.
Proof. split; [apply join_query_returns|done]. Qed.

Lemma join_query_absent_first first rest data_type_set :
  _linked_field_sets_to_join_query (first :: rest) data_type_set = Ok VNone
  ↔ surviving_pairs first data_type_set = [].
Proof.
  cbn [_linked_field_sets_to_join_query]. split.
  - destruct (surviving_pairs first data_type_set) as [|p pairs] eqn:Hp;
      [done|].
    destruct (join_query_rec_returns (p :: pairs)) as [a Ha]; [done|].
    pose proof (join_query_rec_not_None _ _ Ha) as Hnone.
    simpl length. cbn [Nat.eqb].
    destruct (Nat.eqb (length rest) 0).
    + rewrite Ha. intros [= ->]. discriminate.
    + rewrite Ha. cbn [bind].
      destruct (_linked_field_sets_to_join_query rest data_type_set);
        cbn [bind]; discriminate.
  - by intros ->.
Qed.

(** X2: with at least one linked field set, the builder returns [None]
    exactly when the first set has no surviving pair; the sets behind the
    first one cannot make up for it. *)
Theorem join_query_absent_iff_first_set_empty first rest data_type_set :
  _linked_field_sets_to_join_query (first :: rest) data_type_set = Ok VNone
  ↔ surviving_pairs first data_type_set = [].
Proof. apply join_query_absent_first. Qed.

Lemma join_query_absent_iff_first_set_empty_witness :
  _linked_field_sets_to_join_query
    [[("A", ["x"]); ("D", ["w"])]; [("A", ["x"]); ("B", ["y"])]] {["A"; "B"]}
  = Ok VNone.
Proof.
  apply (proj2 (join_query_absent_iff_first_set_empty
                  [("A", ["x"]); ("D", ["w"])] [[("A", ["x"]); ("B", ["y"])]]
                  {["A"; "B"]})).
  vm_compute. reflexivity.
Defined.

(** X3: when the data type set has at most one element, no join query is
    synthesized, whatever the linked field sets are (their keys are
    distinct, as the keys of a dictionary are). *)
Theorem join_query_needs_two_data_types linked_field_sets
    (data_type_set : gset string) :
  (∀ x y, x ∈ data_type_set → y ∈ data_type_set → x = y) →
  Forall (λ fields : DictOfDataTypesAndFields, NoDup fields.*1)
         linked_field_sets →
  _linked_field_sets_to_join_query linked_field_sets data_type_set = Ok VNone.
Proof.
  intros Hone Hkeys. destruct linked_field_sets as [|first rest]; [done|].
  apply join_query_absent_first.
  inversion Hkeys as [|? ? Hfirst _]; subst.
  destruct (surviving_pairs first data_type_set) as [|[a b] pairs] eqn:Hp;
    [done|].
  assert (Hin : (a, b) ∈ surviving_pairs first data_type_set)
    by (rewrite Hp; left).
  unfold surviving_pairs in Hin.
  apply list_elem_of_filter in Hin as [[Ha Hb] Hin]. simpl in Ha, Hb.
  destruct (combinations2_distinct_keys first a b Hfirst Hin).
  by apply Hone.
Qed.

Lemma join_query_needs_two_data_types_witness :
  _linked_field_sets_to_join_query
    [[("A", ["x"]); ("B", ["y"])]; [("A", ["z"]); ("D", ["w"])]] {["A"]}
  = Ok VNone.
Proof.
  apply join_query_needs_two_data_types.
  - intros x y Hx Hy. apply elem_of_singleton in Hx, Hy. congruence.
  - apply (bool_decide_unpack _). vm_compute. exact I.
Defined.

(** X4: for one linked field set with [n >= 2] fields, all of queried data
    types, the join query holds one equality per unordered pair of fields:
    [n * (n - 1)] resolve nodes, two per equality. *)
Theorem join_query_size_quadratic (fields : DictOfDataTypesAndFields)
    (data_type_set : gset string) :
  (2 ≤ length fields)%nat →
  Forall (λ f, f.1 ∈ data_type_set) fields →
  ∃ q,
    _linked_field_sets_to_join_query [fields] data_type_set = Ok q
    ∧ length (resolve_nodes q) = length fields * (length fields - 1).
Proof.
  intros Hlen Hall. cbn [_linked_field_sets_to_join_query].
  rewrite (surviving_pairs_all _ _ Hall).
  pose proof (combinations2_length fields) as Hc.
  unfold DictOfDataTypesAndFields, DataTypeAndField in *.
  destruct (combinations2 fields) as [|p pairs] eqn:Hp.
  { simpl in Hc. destruct fields as [|? [|? ?]]; simpl in *; lia. }
  destruct (join_query_rec_returns (p :: pairs)) as [q Hq]; [done|].
  exists q. simpl length. cbn [Nat.eqb]. split; [done|].
  rewrite (join_query_rec_resolve_count _ _ Hq). exact Hc.
Qed.

Lemma join_query_size_quadratic_witness :
  ∃ q,
    _linked_field_sets_to_join_query
      [[("A", ["x"]); ("B", ["y"]); ("C", ["z"])]] {["A"; "B"; "C"]} = Ok q
    ∧ length (resolve_nodes q) = 3 * (3 - 1).
Proof.
  apply (join_query_size_quadratic
           [("A", ["x"]); ("B", ["y"]); ("C", ["z"])] {["A"; "B"; "C"]}).
  - simpl. lia.
  - apply (bool_decide_unpack _). vm_compute. exact I.
Defined.

(** ** Resolve augmentation and query combination *)

Lemma py_eq_str_true v s : py_eq_str v s = true → v = VStr s.
Proof.
  destruct v; simpl; try discriminate.
  intros H. by apply String.eqb_eq in H as ->.
Qed.

Lemma for_each_id {A} (f : A → result A) l :
  Forall (λ x, ∀ y, f x = Ok y → y = x) l →
  ∀ l', for_each f l = Ok l' → l' = l.
Proof.
  induction 1 as [|x xs Hx _ IH]; intros l' H; simpl in H.
  - by inversion H.
  - apply bind_Ok_inv in H as (y & Hy & H).
    apply bind_Ok_inv in H as (ys & Hys & [= <-]).
    by rewrite (Hx y Hy), (IH ys Hys).
Qed.

Lemma augment_nil_prefix query :
  ∀ q', _augment_resolves query [] = Ok q' → q' = query.
Proof.
  induction query as [| | | |l IH|d _] using value_nested_ind;
    intros q'; try (by intros [= <-]).
  destruct l as [|head operands]; [by intros [= <-]|].
  rewrite augment_unfold.
  destruct (py_len head) as [n|]; cbn [bind]; [|done].
  destruct (Nat.eqb n 0); [by intros [= <-]|].
  destruct (py_item0 head) as [c|]; cbn [bind]; [|done].
  destruct (negb (py_eq_str c "#")); [by intros [= <-]|].
  destruct (py_eq_str head "#resolve") eqn:Hres.
  - apply py_eq_str_true in Hres as ->. by intros [= <-].
  - inversion IH as [|? ? _ IHops]; subst. intros H.
    apply bind_Ok_inv in H as (ys & Hys & [= <-]).
    by rewrite (for_each_id _ _ IHops ys Hys).
Qed.

Lemma combine_loop_not_None items :
  ∀ join_query q,
    is_None join_query = false →
    combine_loop items join_query = Ok q → is_None q = false.
Proof.
  induction items as [|[dt dt_q] items IH]; intros join_query q Hjq H.
  - by inversion H; subst.
  - simpl in H. apply bind_Ok_inv in H as (q' & _ & H).
    by eapply IH; [|exact H].
Qed.

Lemma collect_and py_format a b :
  _get_array_resolve_paths py_format (VList [VStr "#and"; a; b])
  = _get_array_resolve_paths py_format a
      ++ _get_array_resolve_paths py_format b.
Proof. simpl. by rewrite app_nil_r. Qed.

Lemma combine_loop_paths py_format items :
  ∀ join_query q,
    combine_loop items join_query = Ok q →
    ∃ extra,
      _get_array_resolve_paths py_format q
      = extra ++ _get_array_resolve_paths py_format join_query.
Proof.
  induction items as [|[dt dt_q] items IH]; intros join_query q H.
  - inversion H; subst. by exists [].
  - simpl in H. apply bind_Ok_inv in H as (q' & _ & H).
    destruct (IH _ _ H) as [extra Hextra].
    exists (extra ++ _get_array_resolve_paths py_format q').
    by rewrite Hextra, collect_and, app_assoc.
Qed.

(** X5: with the empty prefix the augmentation changes nothing: when it
    returns, it returns the query it was given. *)
Theorem augment_empty_prefix_identity query q' :
  _augment_resolves query [] = Ok q' → q' = query.
Proof. apply augment_nil_prefix. Qed.

Lemma augment_empty_prefix_identity_witness :
  VList [VStr "#and"; VList [VStr "#resolve"; VStr "x"]; VInt 1]
  = VList [VStr "#and"; VList [VStr "#resolve"; VStr "x"]; VInt 1].
Proof.
  apply (augment_empty_prefix_identity
           (VList [VStr "#and"; VList [VStr "#resolve"; VStr "x"]; VInt 1])).
  reflexivity.
Defined.

(** X6: whether the augmentation raises, and with which exception, depends
    on the query only: a query that is rejected under one prefix is rejected
    in the same way under every prefix. *)
Theorem augment_failure_independent_of_prefix query prefix prefix' e :
  _augment_resolves query prefix = Raise e →
  _augment_resolves query prefix' = Raise e.
Proof. apply augment_raise_prefix. Qed.

Lemma augment_failure_independent_of_prefix_witness :
  _augment_resolves
    (VList [VStr "#and"; VBool true; VList [VBool false; VInt 2]])
    ["B"; "[item]"]
  = Raise TypeError.
Proof.
  apply (augment_failure_independent_of_prefix
           (VList [VStr "#and"; VBool true; VList [VBool false; VInt 2]]) []).
  reflexivity.
Defined.

(** X7: the combination keeps absence as it is.  Without a join query the
    result is [None] and the data type queries are not looked at, so even a
    query that the augmentation would reject does not raise; with a join
    query, a result that is returned is never [None]. *)
Theorem combine_keeps_absence join_query data_type_queries :
  (is_None join_query = true →
   _combine_join_and_data_type_queries join_query data_type_queries = Ok VNone)
  ∧ (∀ q, is_None join_query = false →
          _combine_join_and_data_type_queries join_query data_type_queries
          = Ok q →
          is_None q = false).
Proof.
  unfold _combine_join_and_data_type_queries. split.
  - by intros ->.
  - intros q Hjq. rewrite Hjq. by apply combine_loop_not_None.
Qed.

Lemma combine_keeps_absence_witness :
  _combine_join_and_data_type_queries VNone
    [("A", VList [VInt 1; VInt 2])] = Ok VNone.
Proof.
  apply (proj1 (combine_keeps_absence VNone [("A", VList [VInt 1; VInt 2])])).
  reflexivity.
Defined.

(** X8: the array resolve paths of the combined query end with the paths of
    the join query it was combined from; the data type queries can only add
    paths in front of them. *)
Theorem combined_paths_end_with_join_paths
    py_format join_query data_type_queries q :
  _combine_join_and_data_type_queries join_query data_type_queries = Ok q →
  ∃ extra,
    _get_array_resolve_paths py_format q
    = extra ++ _get_array_resolve_paths py_format join_query.
Proof.
  unfold _combine_join_and_data_type_queries.
  destruct (is_None join_query) eqn:Hjq.
  - intros [= <-]. exists []. by destruct join_query.
  - apply combine_loop_paths.
Qed.

Lemma combined_paths_end_with_join_paths_witness :
  ∃ extra,
    _get_array_resolve_paths format_str
      (VList [VStr "#and";
              VList [VStr "#eq";
                     VList [VStr "#resolve"; VStr "A"; VStr "[item]"; VStr "x"];
                     VInt 1];
              demo_join_query])
    = extra ++ _get_array_resolve_paths format_str demo_join_query.
Proof.
  apply (combined_paths_end_with_join_paths format_str demo_join_query
           [("A", VList [VStr "#eq"; VList [VStr "#resolve"; VStr "x"];
                         VInt 1])]).
  reflexivity.
Defined.

(** ** The array resolve path collector *)

Lemma string_app_assoc (a b c : string) : (a +:+ b) +:+ c = a +:+ (b +:+ c).
Proof.
  induction a as [|x a IH]; [done|].
  change (String x ((a +:+ b) +:+ c) = String x (a +:+ (b +:+ c))).
  by rewrite IH.
Qed.

Lemma string_app_nil_r (a : string) : a +:+ "" = a.
Proof.
  induction a as [|x a IH]; [done|].
  change (String x (a +:+ "") = String x a). by rewrite IH.
Qed.

Lemma splits_filter_length (l : list value) :
  length (filter (λ ps : list value * value, py_eq_str ps.2 item_marker = true)
                 (splits l))
  = length (filter (λ s, py_eq_str s item_marker = true) l).
Proof.
  induction l as [|x l IH]; [done|].
  cbn [splits]. rewrite !filter_cons, marker_filter_shift. cbn [snd].
  case_decide; simpl; by rewrite length_map, IH.
Qed.

Lemma collect_unfold py_format head op ops :
  _get_array_resolve_paths py_format (VList (head :: op :: ops))
  = if py_eq_str head "#resolve"
    then resolve_loop py_format (op :: ops) "_root" []
    else concat (map (_get_array_resolve_paths py_format) (op :: ops)).
Proof. reflexivity. Qed.

Lemma dotted_prefix py_format segments :
  ∀ path, ∃ rest, dotted py_format path segments = path +:+ rest.
Proof.
  induction segments as [|ri segments IH]; intros path.
  - exists "". by rewrite string_app_nil_r.
  - destruct (IH (path +:+ "." +:+ py_format ri)) as [rest Hrest].
    exists (("." +:+ py_format ri) +:+ rest).
    change (dotted py_format path (ri :: segments))
      with (dotted py_format (path +:+ "." +:+ py_format ri) segments).
    by rewrite Hrest, string_app_assoc.
Qed.

Lemma collect_rooted py_format query :
  ∀ p, p ∈ _get_array_resolve_paths py_format query →
       ∃ rest, p = "_root" +:+ rest.
Proof.
  induction query as [| | | |l IH|d _] using value_nested_ind;
    intros p; try (by intros ?%elem_of_nil).
  destruct l as [|head [|op ops]]; try (by intros ?%elem_of_nil).
  rewrite collect_unfold. destruct (py_eq_str head "#resolve").
  - rewrite resolve_loop_spec, app_nil_l.
    intros (ps & <- & _)%list_elem_of_In%in_map_iff.
    apply dotted_prefix.
  - intros Hin. apply list_elem_of_In, in_concat in Hin as (paths & Hpaths & Hp).
    apply in_map_iff in Hpaths as (q & <- & Hq).
    inversion IH as [|? ? _ IHops]; subst.
    rewrite Forall_forall in IHops.
    apply (IHops q); by apply list_elem_of_In.
Qed.

Lemma collect_from_resolve_nodes py_format query :
  ∀ p, p ∈ _get_array_resolve_paths py_format query →
       ∃ segments, segments ∈ resolve_nodes query
                   ∧ p ∈ marker_paths py_format segments.
Proof.
  induction query as [| | | |l IH|d _] using value_nested_ind;
    intros p; try (by intros ?%elem_of_nil).
  destruct l as [|head [|op ops]]; try (by intros ?%elem_of_nil).
  rewrite collect_unfold. cbn [resolve_nodes].
  destruct (py_eq_str head "#resolve") eqn:Hres.
  - intros Hin. exists (op :: ops). split; [by left|].
    unfold marker_paths. by rewrite resolve_loop_spec, app_nil_l in Hin.
  - intros Hin. apply list_elem_of_In, in_concat in Hin as (paths & Hpaths & Hp).
    apply in_map_iff in Hpaths as (q & <- & Hq).
    inversion IH as [|? ? _ IHops]; subst.
    rewrite Forall_forall in IHops.
    destruct (IHops q) with (p := p) as (segments & Hseg & Hpath);
      [by apply list_elem_of_In|by apply list_elem_of_In|].
    exists segments. split; [|done].
    rewrite app_nil_l. apply elem_of_app. right.
    apply list_elem_of_In, in_concat. exists (resolve_nodes q).
    split; [by apply in_map|by apply list_elem_of_In].
Qed.

Lemma resolve_loop_no_marker py_format segments :
  Forall (λ s, py_eq_str s item_marker = false) segments →
  ∀ path r, resolve_loop py_format segments path r = r.
Proof.
  induction 1 as [|ri segments Hri _ IH]; intros path r; [done|].
  simpl. by rewrite Hri, IH.
Qed.

Lemma marker_paths_scoped py_format dt field :
  (∀ s, py_format (VStr s) = s) →
  dt ≠ item_marker → item_marker ∉ field →
  marker_paths py_format (scoped_path (dt, field)) = ["_root." +:+ dt].
Proof.
  intros Hfmt Hdt Hfield.
  rewrite <- resolve_node_paths. unfold scoped_path. cbn [fst snd].
  rewrite collect_unfold. cbn [py_eq_str]. rewrite String.eqb_refl.
  cbn [resolve_loop py_eq_str].
  apply String.eqb_neq in Hdt. rewrite Hdt, String.eqb_refl.
  rewrite resolve_loop_no_marker; [by rewrite Hfmt|].
  apply Forall_forall. intros s Hs. apply list_elem_of_fmap in Hs as (x & -> & Hx).
  cbn [py_eq_str]. apply String.eqb_neq. by intros ->.
Qed.

(** X9: a resolve node yields exactly one array resolve path per array-item
    marker of its path; a resolve path without marker yields none. *)
Theorem collect_one_path_per_marker py_format segments :
  length (_get_array_resolve_paths py_format
            (VList (VStr "#resolve" :: segments)))
  = length (filter (λ s, py_eq_str s item_marker = true) segments).
Proof.
  rewrite resolve_node_paths. unfold marker_paths.
  by rewrite length_map, splits_filter_length.
Qed.

(** X10: every collected array resolve path starts with ["_root"], whatever
    the query. *)
Theorem collect_paths_rooted py_format query p :
  p ∈ _get_array_resolve_paths py_format query →
  ∃ rest, p = "_root" +:+ rest.
Proof. apply collect_rooted. Qed.

Lemma collect_paths_rooted_witness :
  ∃ rest, "_root.A.[item].ys" = "_root" +:+ rest.
Proof.
  apply (collect_paths_rooted format_str demo_join_query).
  vm_compute. right. right. left.
Defined.

(** X11: collected from a synthesized join query, the array resolve paths
    are the arrays of queried data types, ["_root.<data type>"], provided no
    field path of a linked field set goes through an array item and no data
    type is named like the marker. *)
Theorem synthesized_join_paths_are_data_type_arrays
    py_format linked_field_sets (data_type_set : gset string) q p :
  (∀ s, py_format (VStr s) = s) →
  item_marker ∉ data_type_set →
  Forall (λ fields : DictOfDataTypesAndFields,
            Forall (λ f, item_marker ∉ f.2) fields) linked_field_sets →
  _linked_field_sets_to_join_query linked_field_sets data_type_set = Ok q →
  p ∈ _get_array_resolve_paths py_format q →
  ∃ dt, dt ∈ data_type_set ∧ p = "_root." +:+ dt.
Proof.
  intros Hfmt Hmarker Hfields Hq Hp.
  apply collect_from_resolve_nodes in Hp as (segments & Hseg & Hp).
  destruct (join_query_resolve_nodes _ _ q segments Hq Hseg)
    as (fields & [dt field] & Hin & Hf & Hdt & ->).
  exists dt. split; [done|].
  rewrite Forall_forall in Hfields. specialize (Hfields fields Hin).
  rewrite Forall_forall in Hfields. specialize (Hfields (dt, field) Hf).
  rewrite marker_paths_scoped in Hp; [|done| |done].
  - by apply list_elem_of_singleton in Hp.
  - intros ->. done.
Qed.

Lemma synthesized_join_paths_are_data_type_arrays_witness :
  ∃ dt, dt ∈ ({["A"; "B"]} : gset string) ∧ "_root.B" = "_root." +:+ dt.
Proof.
  apply (synthesized_join_paths_are_data_type_arrays format_str
           [[("A", ["x"]); ("B", ["y"; "z"]); ("E", ["k"])]] {["A"; "B"]}
           (VList [VStr "#eq";
                   VList [VStr "#resolve"; VStr "A"; VStr "[item]"; VStr "x"];
                   VList [VStr "#resolve"; VStr "B"; VStr "[item]"; VStr "y";
                          VStr "z"]])).
  - intros s. reflexivity.
  - apply (bool_decide_unpack _). vm_compute. exact I.
  - apply (bool_decide_unpack _). vm_compute. exact I.
  - vm_compute. reflexivity.
  - vm_compute. right. left.
Defined.

(** ** Worker pools, whatever the interleaving *)

Section PoolRelation.
Context {Item Pending St : Type}.
Variable begin : Item → St → St * option Pending.
Variable resume : Pending → St → result St.
Variable workers : nat.
Variable R : list Item → list Pending → St → Prop.
Hypothesis begin_rel :
  ∀ t queue pending st st' p,
    R (t :: queue) pending st → begin t st = (st', p) →
    R queue (pending ++ option_list p) st'.
Hypothesis resume_rel :
  ∀ queue pending st i p st',
    R queue pending st → pending !! i = Some p → resume p st = Ok st' →
    R queue (delete i pending) st'.

(** A relation between what is still queued, what is suspended and the
    shared state, kept by both halves of the item handling, holds of the
    drained pool. *)
Lemma pool_run_relation sched :
  ∀ queue pending st st',
    R queue pending st →
    pool_run begin resume workers sched queue pending st = Some (Ok st') →
    R [] [] st'.
Proof.
induction sched as [|c sched IH]; intros queue pending st st' HR H.
- simpl in H. destruct queue, pending; try discriminate.
  by inversion H; subst.
- destruct c as [|i]; simpl in H.
  + destruct queue as [|t queue]; [discriminate|].
    case_decide; [|discriminate].
    destruct (begin t st) as [st1 p] eqn:Hb.
    eapply IH; [|exact H]. by eapply begin_rel.
  + destruct (pending !! i) as [p|] eqn:Hi; [|discriminate].
    destruct (resume p st) as [st1|e] eqn:Hr; [|discriminate].
    eapply IH; [|exact H]. by eapply resume_rel.
Qed.
End PoolRelation.

Lemma search_begin_pending join_query data_type_queries include table_pair
    st st' p :
  search_begin join_query data_type_queries include table_pair st = (st', p) →
  p = pending_of join_query data_type_queries include table_pair
  ∧ st_results st' = st_results st
  ∧ st_requests st' = st_requests st ++ request_of p.
Proof.
  destruct table_pair as [table_ownership table_record].
  unfold pending_of, search_begin.
  destruct (bool_decide (data_type table_record ∈ data_type_queries.*1));
    simpl; intros [= <- <-]; simpl; [done|]. by rewrite app_nil_r.
Qed.


Section PoolRuns.
Variable WORKERS : nat.
Variable peer_get : string → result TableRecord.
Variable peer_post : string → value → result value.


Lemma discovery_pool_contents sched :
  ∀ ownerships acc,
    _fetch_table_definition_worker WORKERS peer_get sched ownerships [] []
    = Some (Ok acc) →
    acc.*1 ≡ₚ ownerships
    ∧ Forall (λ tr, peer_get (table_path tr.1) = Ok tr.2) acc.
Proof.
intros ownerships acc Hrun.
assert (HR : (acc.*1 ++ [] ++ [] ≡ₚ ownerships)
             ∧ Forall (λ tr, peer_get (table_path tr.1) = Ok tr.2) acc).
{ refine (pool_run_relation _ _ WORKERS
            (λ queue pending (acc : list (TableOwnership * TableRecord)),
               (acc.*1 ++ pending ++ queue ≡ₚ ownerships)
               ∧ Forall (λ tr, peer_get (table_path tr.1) = Ok tr.2) acc)
            _ _ sched _ _ _ _ _ Hrun); [| |done].
  - intros t queue pending acc0 acc1 p [Hperm Hall] [= <- <-].
    split; [|done]. rewrite <- Hperm. simpl.
    rewrite <- (assoc_L (++) pending [t] queue). done.
  - intros queue pending acc0 i t acc1 [Hperm Hall] Hi Hr.
    unfold fetch_resume in Hr.
    apply bind_Ok_inv in Hr as (r & Hget & [= <-]). split.
    + rewrite fmap_app. etrans; [|exact Hperm].
      rewrite <- (assoc_L (++)). apply Permutation_app_head.
      simpl. rewrite app_comm_cons. apply Permutation_app_tail.
      symmetry. by apply delete_Permutation.
    + apply Forall_app. split; [done|]. by apply Forall_singleton. }
destruct HR as [Hperm Hall]. by rewrite !app_nil_r in Hperm.
Qed.
End PoolRuns.

Lemma elem_of_table_data_types tables dt :
  dt ∈ table_data_types_of tables ↔ ∃ tr, tr ∈ tables ∧ data_type tr.2 = dt.
Proof.
  unfold table_data_types_of. rewrite elem_of_list_to_set.
  rewrite list_elem_of_In, in_map_iff. split.
  - intros (tr & Hdt & Hin). exists tr. by rewrite list_elem_of_In.
  - intros (tr & Hin & Hdt). exists tr. by rewrite <- list_elem_of_In.
Qed.

Lemma search_begin_queried join_query data_type_queries include table_pair
    st st' p :
  search_begin join_query data_type_queries include table_pair st = (st', p) →
  data_type table_pair.2 ∈ data_type_queries.*1 →
  ∃ p', p = Some p' ∧ ps_data_type p' = data_type table_pair.2.
Proof.
  destruct table_pair as [table_ownership table_record].
  unfold search_begin. intros Hb Hq. simpl in Hq.
  rewrite (bool_decide_eq_true_2 _ Hq) in Hb. simpl in Hb.
  injection Hb as <- <-. eauto.
Qed.

Lemma search_begin_properties join_query data_type_queries include table_pair
    st st' p :
  search_begin join_query data_type_queries include table_pair st = (st', p) →
  st_properties st' = st_properties st
  ∨ (is_None join_query = false
     ∧ st_properties st !! data_type table_pair.2 = None
     ∧ ∃ v, st_properties st'
            = <[data_type table_pair.2 := v]> (st_properties st)).
Proof.
  destruct table_pair as [table_ownership table_record].
  unfold search_begin.
  destruct (negb (is_None join_query)
            && bool_decide (st_properties st !! data_type table_record = None))
    eqn:Hc.
  - apply andb_true_iff in Hc as [Hjq Hnone].
    apply negb_true_iff in Hjq. apply bool_decide_eq_true in Hnone.
    intros Hb. right. split; [done|]. split; [done|].
    destruct (negb (bool_decide (data_type table_record ∈ data_type_queries.*1)));
      injection Hb as <- <-; simpl; eauto.
  - intros Hb. left.
    destruct (negb (bool_decide (data_type table_record ∈ data_type_queries.*1)));
      by injection Hb as <- <-.
Qed.

Lemma search_resume_properties peer_post p st st' :
  search_resume peer_post p st = Ok st' → st_properties st' = st_properties st.
Proof.
  unfold search_resume. intros H.
  apply bind_Ok_inv in H as (r & _ & H).
  by apply bind_Ok_inv in H as (results & _ & [= <-]).
Qed.

Section SearchPoolFacts.
Variable WORKERS : nat.
Variable peer_post : string → value → result value.
Variable join_query : value.
Variable data_type_queries : DataTypeQueries.
Variable include : bool.
Variable sched : list choice.
Variable tables : list (TableOwnership * TableRecord).
Variable properties : gmap string value.
Variable st' : SearchState.
Hypothesis pool_done :
  _table_search_worker WORKERS peer_post join_query data_type_queries include
    sched tables []
    {| st_properties := properties; st_results := ∅; st_requests := [] |}
  = Some (Ok st').

Lemma search_pool_dom_sub dt :
  is_Some (st_results st' !! dt) →
  dt ∈ data_type_queries.*1 ∧ dt ∈ table_data_types_of tables.
Proof.
revert dt.
refine (pool_run_invariant _ _ WORKERS
          (λ pair, pair.2.(data_type) ∈ table_data_types_of tables)
          (λ p, ps_data_type p ∈ data_type_queries.*1
                ∧ ps_data_type p ∈ table_data_types_of tables)
          (λ st, ∀ dt, is_Some (st_results st !! dt) →
                       dt ∈ data_type_queries.*1
                       ∧ dt ∈ table_data_types_of tables)
          _ _ sched _ _ _ _ _ _ _ pool_done).
- intros pair st0 st1 p Hpair Hst Hb.
  apply search_begin_spec in Hb as [Hres Hp]. split.
  + intros dt. rewrite Hres. apply Hst.
  + intros p' ->. destruct (Hp p' eq_refl) as (Hq & -> & _). done.
- intros p st0 st1 [Hq Ht] Hst Hr.
  apply search_resume_results in Hr as [v ->]. intros dt.
  destruct (decide (ps_data_type p = dt)) as [<-|Hne]; [done|].
  rewrite lookup_insert_ne by done. apply Hst.
- apply Forall_forall. intros pair Hpair.
  apply elem_of_table_data_types. by exists pair.
- done.
- intros dt. simpl. rewrite lookup_empty. by intros [? ?].
Qed.

Lemma search_pool_dom_sup dt :
  dt ∈ data_type_queries.*1 → dt ∈ table_data_types_of tables →
  is_Some (st_results st' !! dt).
Proof.
intros Hq Ht.
assert (HR : is_Some (st_results st' !! dt)
             ∨ dt ∈ ps_data_type <$> ([] : list PendingSearch)
             ∨ dt ∈ (λ tr : TableOwnership * TableRecord, data_type tr.2)
                      <$> ([] : list (TableOwnership * TableRecord))).
{ refine (pool_run_relation _ _ WORKERS
            (λ queue pending st,
               is_Some (st_results st !! dt)
               ∨ dt ∈ ps_data_type <$> pending
               ∨ dt ∈ (λ tr : TableOwnership * TableRecord, data_type tr.2)
                        <$> queue)
            _ _ sched _ _ _ _ _ pool_done).
  - intros t queue pending st0 st1 p HR Hb.
    destruct HR as [Hres|[Hpend|Hqueue]].
    + left. apply search_begin_spec in Hb as [-> _]. done.
    + right. left. rewrite fmap_app. apply elem_of_app. by left.
    + rewrite fmap_cons in Hqueue.
      apply elem_of_cons in Hqueue as [->|Hqueue]; [|by right; right].
      destruct (search_begin_queried _ _ _ _ _ _ _ Hb Hq) as (p' & -> & Hp').
      right. left. rewrite fmap_app. apply elem_of_app. right.
      simpl. rewrite Hp'. left.
  - intros queue pending st0 i p st1 HR Hi Hr.
    apply search_resume_results in Hr as [v ->].
    destruct HR as [Hres|[Hpend|Hqueue]]; [| |by right; right].
    + left. destruct (decide (ps_data_type p = dt)) as [<-|Hne].
      * rewrite lookup_insert_eq. eauto.
      * by rewrite lookup_insert_ne.
    + rewrite (delete_Permutation pending i p Hi), fmap_cons in Hpend.
      apply elem_of_cons in Hpend as [->|Hpend]; [|by right; left].
      left. rewrite lookup_insert_eq. eauto.
  - right. right. apply elem_of_table_data_types in Ht as (tr & Hin & <-).
    apply list_elem_of_fmap. by exists tr. }
destruct HR as [Hres|[Hin|Hin]]; [done| |]; by apply elem_of_nil in Hin.
Qed.

Lemma search_pool_keeps_properties dt v :
  properties !! dt = Some v → st_properties st' !! dt = Some v.
Proof.
intros Hv.
refine (pool_run_invariant _ _ WORKERS (λ _, True) (λ _, True)
          (λ st, st_properties st !! dt = Some v)
          _ _ sched _ _ _ _ _ _ _ pool_done).
- intros pair st0 st1 p _ Hst Hb. split; [|done].
  apply search_begin_properties in Hb as [->|(_ & Hnone & w & ->)]; [done|].
  rewrite lookup_insert_ne; [done|]. intros Heq. congruence.
- intros p st0 st1 _ Hst Hr.
  by rewrite (search_resume_properties _ _ _ _ Hr).
- by apply Forall_forall.
- done.
- done.
Qed.

Lemma search_pool_no_join_properties :
  is_None join_query = true → st_properties st' = properties.
Proof.
intros Hjq.
refine (pool_run_invariant _ _ WORKERS (λ _, True) (λ _, True)
          (λ st, st_properties st = properties)
          _ _ sched _ _ _ _ _ _ _ pool_done).
- intros pair st0 st1 p _ Hst Hb. split; [|done].
  apply search_begin_properties in Hb as [->|(Hjq' & _)]; [done|congruence].
- intros p st0 st1 _ Hst Hr.
  by rewrite (search_resume_properties _ _ _ _ Hr).
- by apply Forall_forall.
- done.
- done.
Qed.
End SearchPoolFacts.



(** X13: a discovery pool that completes has fetched every table of the
    dataset exactly once: the discovered list, in completion order, is a
    rearrangement of the table ownerships, each paired with the record its
    peer returned. *)
Theorem discovery_fetches_every_table_once
    WORKERS peer_get discovery_schedule ownerships
    table_ownerships_and_records :
  _fetch_table_definition_worker WORKERS peer_get discovery_schedule
    ownerships [] []
  = Some (Ok table_ownerships_and_records) →
  table_ownerships_and_records.*1 ≡ₚ ownerships
  ∧ Forall (λ tr, peer_get (table_path tr.1) = Ok tr.2)
           table_ownerships_and_records.
Proof. apply discovery_pool_contents. Qed.

Lemma discovery_fetches_every_table_once_witness :
  [(demo_ownership_b, demo_table_b); (demo_ownership, demo_table)].*1
  ≡ₚ [demo_ownership; demo_ownership_b]
  ∧ Forall (λ tr, demo_peer_get2 (table_path tr.1) = Ok tr.2)
           [(demo_ownership_b, demo_table_b); (demo_ownership, demo_table)].
Proof.
  apply (discovery_fetches_every_table_once 2 demo_peer_get2
           [Dequeue; Dequeue; Complete 1; Complete 0]).
  vm_compute. reflexivity.
Defined.

(** X14: the set of table data types the orchestrator works with does not
    depend on the order in which the discovery fetches complete. *)
Theorem discovered_data_types_schedule_independent
    WORKERS WORKERS' peer_get schedule schedule' ownerships tables tables' :
  _fetch_table_definition_worker WORKERS peer_get schedule ownerships [] []
  = Some (Ok tables) →
  _fetch_table_definition_worker WORKERS' peer_get schedule' ownerships [] []
  = Some (Ok tables') →
  table_data_types_of tables = table_data_types_of tables'.
Proof.
  intros H1 H2.
  apply discovery_pool_contents in H1 as [Hp1 Hf1].
  apply discovery_pool_contents in H2 as [Hp2 Hf2].
  assert (Hsub : ∀ l l' : list (TableOwnership * TableRecord),
             l.*1 ≡ₚ l'.*1 →
             Forall (λ tr, peer_get (table_path tr.1) = Ok tr.2) l →
             Forall (λ tr, peer_get (table_path tr.1) = Ok tr.2) l' →
             ∀ dt, dt ∈ table_data_types_of l → dt ∈ table_data_types_of l').
  { intros l l' Hperm Hl Hl' dt.
    rewrite !elem_of_table_data_types. intros (tr & Hin & <-).
    assert (Hfst : tr.1 ∈ l'.*1).
    { rewrite <- Hperm. apply list_elem_of_fmap. by exists tr. }
    apply list_elem_of_fmap in Hfst as (tr' & Heq & Hin').
    exists tr'. split; [done|].
    rewrite Forall_forall in Hl, Hl'.
    pose proof (Hl tr Hin) as Hg. pose proof (Hl' tr' Hin') as Hg'.
    rewrite Heq in Hg. rewrite Hg' in Hg. by injection Hg as ->. }
  apply set_eq. intros dt. split.
  - apply Hsub; [by rewrite Hp1, Hp2|done|done].
  - apply Hsub; [by rewrite Hp1, Hp2|done|done].
Qed.

Lemma discovered_data_types_schedule_independent_witness :
  table_data_types_of
    [(demo_ownership, demo_table); (demo_ownership_b, demo_table_b)]
  = table_data_types_of
      [(demo_ownership_b, demo_table_b); (demo_ownership, demo_table)].
Proof.
  apply (discovered_data_types_schedule_independent 1 2 demo_peer_get2
           [Dequeue; Complete 0; Dequeue; Complete 0]
           [Dequeue; Dequeue; Complete 1; Complete 0]
           [demo_ownership; demo_ownership_b]).
  - vm_compute. reflexivity.
  - vm_compute. reflexivity.
Defined.

(** X15: past the exclusion loop, the keys of the returned accumulator are
    exactly the queried data types that have a discovered table. *)
Theorem result_keys_are_queried_types_with_tables
    WORKERS peer_get peer_post py_format discovery_schedule search_schedule
    dataset_object_schema dataset join_query data_type_queries
    include_internal_results table_ownerships_and_records o dt :
  _fetch_table_definition_worker WORKERS peer_get discovery_schedule
    (table_ownership dataset) [] []
  = Some (Ok table_ownerships_and_records) →
  Forall (λ item, is_True item.2 = true)
         (no_table_items (table_data_types_of table_ownerships_and_records)
                         data_type_queries) →
  run_search_on_dataset WORKERS peer_get peer_post py_format
    discovery_schedule search_schedule dataset_object_schema dataset
    join_query data_type_queries include_internal_results
  = Some (Ok o) →
  is_Some (out_results o !! dt)
  ↔ dt ∈ data_type_queries.*1
    ∧ dt ∈ table_data_types_of table_ownerships_and_records.
Proof.
  intros Hdisc Hall Hrun.
  destruct (run_stages _ _ _ _ _ _ _ _ _ _ _ _ Hdisc o Hall Hrun)
    as (join_query1 & st & _ & _ & _ & Hpool & -> & _).
  split.
  - by eapply search_pool_dom_sub.
  - intros [Hq Ht]. by eapply search_pool_dom_sup.
Qed.

Lemma result_keys_are_queried_types_with_tables_witness :
  is_Some (out_results (outcome_of demo_run) !! "A")
  ↔ "A" ∈ [("A", VList [VStr "#eq"; VList [VStr "#resolve"; VStr "x"]; VInt 1]);
           ("C", VBool true)].*1
    ∧ "A" ∈ table_data_types_of [(demo_ownership, demo_table)].
Proof.
  apply (result_keys_are_queried_types_with_tables 1 demo_peer_get
           demo_peer_post format_str [Dequeue; Complete 0]
           [Dequeue; Complete 0] ∅ demo_dataset VNone
           [("A", VList [VStr "#eq"; VList [VStr "#resolve"; VStr "x"]; VInt 1]);
            ("C", VBool true)]
           true [(demo_ownership, demo_table)]).
  - vm_compute. reflexivity.
  - vm_compute. repeat constructor.
  - vm_compute. reflexivity.
Defined.

(** X16: past the exclusion loop, a call that returns has left in the schema
    every entry it found there or wrote in the loop: the excluded data types
    have the bare array schema (also over an entry of the caller), the other
    entries of the caller are unchanged, and when the final join query is
    absent nothing else has been added. *)
Theorem schema_entries_after_search
    WORKERS peer_get peer_post py_format discovery_schedule search_schedule
    dataset_object_schema dataset join_query data_type_queries
    include_internal_results table_ownerships_and_records o :
  _fetch_table_definition_worker WORKERS peer_get discovery_schedule
    (table_ownership dataset) [] []
  = Some (Ok table_ownerships_and_records) →
  Forall (λ item, is_True item.2 = true)
         (no_table_items (table_data_types_of table_ownerships_and_records)
                         data_type_queries) →
  run_search_on_dataset WORKERS peer_get peer_post py_format
    discovery_schedule search_schedule dataset_object_schema dataset
    join_query data_type_queries include_internal_results
  = Some (Ok o) →
  (∀ dt, dt ∈ (no_table_items
                 (table_data_types_of table_ownerships_and_records)
                 data_type_queries).*1 →
         out_properties o !! dt = Some array_schema)
  ∧ (∀ dt v, dt ∉ (no_table_items
                     (table_data_types_of table_ownerships_and_records)
                     data_type_queries).*1 →
             dataset_object_schema !! dt = Some v →
             out_properties o !! dt = Some v)
  ∧ (is_None (out_join_query o) = true →
     out_properties o
     = with_array_schemas
         (no_table_items (table_data_types_of table_ownerships_and_records)
                         data_type_queries)
         dataset_object_schema).
Proof.
  intros Hdisc Hall Hrun.
  destruct (run_stages _ _ _ _ _ _ _ _ _ _ _ _ Hdisc o Hall Hrun)
    as (join_query1 & st & _ & _ & _ & Hpool & _ & -> & _).
  split; [|split].
  - intros dt Hdt. eapply search_pool_keeps_properties; [exact Hpool|].
    rewrite with_array_schemas_lookup. by rewrite decide_True.
  - intros dt v Hdt Hv. eapply search_pool_keeps_properties; [exact Hpool|].
    rewrite with_array_schemas_lookup. by rewrite decide_False.
  - intros Hjq. by eapply search_pool_no_join_properties.
Qed.

Lemma schema_entries_after_search_witness :
  out_properties (outcome_of demo_run) !! "C" = Some array_schema.
Proof.
  destruct (schema_entries_after_search 1 demo_peer_get
              demo_peer_post format_str [Dequeue; Complete 0]
              [Dequeue; Complete 0] ∅ demo_dataset VNone
              [("A", VList [VStr "#eq"; VList [VStr "#resolve"; VStr "x"];
                            VInt 1]);
               ("C", VBool true)]
              true [(demo_ownership, demo_table)] (outcome_of demo_run))
    as (Hexcluded & _ & _).
  - vm_compute. reflexivity.
  - vm_compute. repeat constructor.
  - vm_compute. reflexivity.
  - apply Hexcluded. apply (bool_decide_unpack _). vm_compute. exact I.
Defined.

(** ** Merging the answers *)

Lemma merge_response_private p d l dataset_results :
  ps_private p = true →
  dict_get d "results" = Some (VList l) →
  lists_only dataset_results →
  merge_response p (VDict d) dataset_results
  = Ok (<[ps_data_type p :=
            VList (entry dataset_results (ps_data_type p) ++ l)]>
          dataset_results).
Proof.
  intros Hpriv Hres Hlists. unfold merge_response, entry.
  rewrite Hpriv. simpl. rewrite Hres. simpl.
  destruct (dataset_results !! ps_data_type p) as [cur|] eqn:Hcur; [|done].
  by destruct (Hlists _ _ Hcur) as [l0 ->].
Qed.

Lemma search_resume_unmergeable peer_post p e :
  peer_post (ps_path p) (ps_query p) = Raise e
  ∨ (ps_private p = true
     ∧ ∃ r, peer_post (ps_path p) (ps_query p) = Ok r
            ∧ py_getitem r "results" = Raise e) →
  ∀ st, search_resume peer_post p st = Raise e.
Proof.
  intros [Hr|(Hpriv & r & Hr & Hget)] st; unfold search_resume; rewrite Hr;
    [done|].
  simpl. unfold merge_response. by rewrite Hpriv, Hget.
Qed.

(** X17: a queried table handled in private mode (a join query in effect or
    internal results requested) is searched on the private endpoint, and
    the list under ["results"] of its answer is appended to the data type's
    entry of the accumulator; the other entries are untouched. *)
Theorem private_search_appends_results
    peer_post join_query data_type_queries include table_pair st st1 p st2 d l :
  search_begin join_query data_type_queries include table_pair st
  = (st1, Some p) →
  negb (is_None join_query) || include = true →
  peer_post (ps_path p) (ps_query p) = Ok (VDict d) →
  dict_get d "results" = Some (VList l) →
  lists_only (st_results st2) →
  ∃ st3,
    search_resume peer_post p st2 = Ok st3
    ∧ ps_path p = "api/" +:+ table_pair.1.(service_artifact)
                    +:+ "/private/tables/" +:+ table_pair.2.(id) +:+ "/search"
    ∧ st_results st3 !! table_pair.2.(data_type)
      = Some (VList (entry (st_results st2) table_pair.2.(data_type) ++ l))
    ∧ (∀ dt, dt ≠ table_pair.2.(data_type) →
             st_results st3 !! dt = st_results st2 !! dt)
    ∧ lists_only (st_results st3).
Proof.
  intros Hb Hmode Hr Hres Hlists.
  apply search_begin_spec in Hb as [_ Hp].
  destruct (Hp p eq_refl) as (_ & Hdt & Hpriv & Hpath).
  rewrite Hmode in Hpriv. rewrite Hpriv in Hpath. simpl in Hpath.
  unfold search_resume. rewrite Hr. simpl.
  rewrite (merge_response_private p d l) by done. simpl. rewrite Hdt.
  eexists. split; [done|]. simpl.
  split; [done|]. split; [apply lookup_insert_eq|]. split.
  - intros dt Hne. by apply lookup_insert_ne.
  - by apply lists_only_insert.
Qed.

Lemma private_search_appends_results_witness :
  ∃ st3,
    search_resume demo_peer_post
      {| ps_data_type := "A"; ps_private := true;
         ps_path := "api/metadata/private/tables/t1/search";
         ps_query := VBool true |}
      blank_state
    = Ok st3
    ∧ st_results st3 !! "A" = Some (VList [VInt 7]).
Proof.
  destruct (private_search_appends_results demo_peer_post VNone
              [("A", VBool true)] true (demo_ownership, demo_table)
              blank_state
              {| st_properties := ∅; st_results := ∅;
                 st_requests := [("api/metadata/private/tables/t1/search",
                                  VBool true)] |}
              {| ps_data_type := "A"; ps_private := true;
                 ps_path := "api/metadata/private/tables/t1/search";
                 ps_query := VBool true |}
              blank_state
              [("results", VList [VInt 7])] [VInt 7])
    as (st3 & Hrun & _ & Hentry & _).
  - reflexivity.
  - reflexivity.
  - reflexivity.
  - reflexivity.
  - intros dt cur H. simpl in H. rewrite lookup_empty in H. discriminate.
  - exists st3. split; [exact Hrun|exact Hentry].
Defined.

(** X18: one answer that cannot be merged fails the whole search pool.  When
    the search of a queried table fails at the peer, or is answered in
    private mode by a value that has no ["results"] member, no interleaving
    lets the pool complete normally: there is no partial result. *)
Theorem unmergeable_answer_fails_search_pool
    WORKERS peer_post join_query data_type_queries include table_pair p e
    sched tables st st' :
  table_pair ∈ tables →
  pending_of join_query data_type_queries include table_pair = Some p →
  peer_post (ps_path p) (ps_query p) = Raise e
  ∨ (ps_private p = true
     ∧ ∃ r, peer_post (ps_path p) (ps_query p) = Ok r
            ∧ py_getitem r "results" = Raise e) →
  _table_search_worker WORKERS peer_post join_query data_type_queries include
    sched tables [] st
  ≠ Some (Ok st').
Proof.
  intros Hin Hp Hbad Hrun.
  pose proof (search_resume_unmergeable peer_post p e Hbad) as Hraise.
  assert (HR : p ∈ ([] : list PendingSearch)
               ∨ table_pair ∈ ([] : list (TableOwnership * TableRecord))).
  { refine (pool_run_relation _ _ WORKERS
              (λ queue pending (_ : SearchState),
                 p ∈ pending ∨ table_pair ∈ queue)
              _ _ sched _ _ _ _ _ Hrun).
    - intros t queue pending st0 st1 p0 [Hpend|Hqueue] Hb.
      + left. apply elem_of_app. by left.
      + apply elem_of_cons in Hqueue as [<-|Hqueue]; [|by right].
        apply search_begin_pending in Hb as (-> & _). rewrite Hp.
        left. apply elem_of_app. right. simpl. left.
    - intros queue pending st0 i p0 st1 [Hpend|Hqueue] Hi Hr; [|by right].
      left. rewrite (delete_Permutation pending i p0 Hi) in Hpend.
      apply elem_of_cons in Hpend as [->|Hpend]; [|done].
      rewrite Hraise in Hr. discriminate.
    - by right. }
  destruct HR as [H|H]; by apply elem_of_nil in H.
Qed.

Lemma unmergeable_answer_fails_search_pool_witness :
  _table_search_worker 1 (λ _ _, Ok (VBool true)) VNone [("A", VBool true)]
    true [Dequeue; Complete 0] [(demo_ownership, demo_table)] [] blank_state
  ≠ Some (Ok blank_state).
Proof.
  apply (unmergeable_answer_fails_search_pool 1 (λ _ _, Ok (VBool true)) VNone
           [("A", VBool true)] true (demo_ownership, demo_table)
           {| ps_data_type := "A"; ps_private := true;
              ps_path := "api/metadata/private/tables/t1/search";
              ps_query := VBool true |}
           TypeError).
  - left.
  - reflexivity.
  - right. split; [reflexivity|]. exists (VBool true).
    split; reflexivity.
Defined.

(** ** Public mode, whole pool *)

Lemma pending_of_public data_type_queries table_pair :
  pending_of VNone data_type_queries false table_pair
  = if bool_decide (data_type table_pair.2 ∈ data_type_queries.*1)
    then Some {| ps_data_type := data_type table_pair.2;
                 ps_private := false;
                 ps_path := "api/" +:+ service_artifact table_pair.1
                              +:+ "/tables/" +:+ id table_pair.2 +:+ "/search";
                 ps_query := default VNone
                               (dict_get data_type_queries
                                  (data_type table_pair.2)) |}
    else None.
Proof.
  destruct table_pair as [table_ownership table_record].
  unfold pending_of, search_begin. simpl.
  by destruct (bool_decide (data_type table_record ∈ data_type_queries.*1)).
Qed.


Section PublicPool.
Variable WORKERS : nat.
Variable peer_post : string → value → result value.
Variable data_type_queries : DataTypeQueries.

End PublicPool.



(** ** Tables, exclusion and failure *)

(** X20: a join query synthesized over the queried data types minus the
    excluded ones resolves only through data types that are queried and
    have a discovered table. *)
Theorem synthesized_join_avoids_table_less_types
    linked_field_sets table_ownerships_and_records
    (data_type_queries : DataTypeQueries) q path :
  _linked_field_sets_to_join_query linked_field_sets
    (list_to_set data_type_queries.*1
       ∖ list_to_set
           (no_table_items (table_data_types_of table_ownerships_and_records)
                           data_type_queries).*1)
  = Ok q →
  path ∈ resolve_nodes q →
  ∃ dt field,
    path = VStr dt :: VStr "[item]" :: map VStr field
    ∧ dt ∈ data_type_queries.*1
    ∧ dt ∈ table_data_types_of table_ownerships_and_records.
Proof.
  intros Hq Hpath.
  destruct (join_query_resolve_nodes _ _ q path Hq Hpath)
    as (fields & [dt field] & _ & _ & Hdt & ->).
  exists dt, field. split; [done|]. simpl in Hdt.
  apply elem_of_difference in Hdt as [Hkey Hnot].
  apply elem_of_list_to_set in Hkey. split; [done|].
  destruct (decide (dt ∈ table_data_types_of table_ownerships_and_records))
    as [Hin|Hno]; [done|].
  destruct Hnot. apply elem_of_list_to_set.
  apply list_elem_of_fmap in Hkey as ([dt' dt_q] & -> & Hitem).
  apply list_elem_of_fmap. exists (dt', dt_q). split; [done|].
  by apply elem_of_no_table_items.
Qed.

Lemma synthesized_join_avoids_table_less_types_witness :
  ∃ dt field,
    [VStr "A"; VStr "[item]"; VStr "x"]
    = VStr dt :: VStr "[item]" :: map VStr field
    ∧ dt ∈ [("A", VBool true); ("B", VBool true); ("C", VBool true)].*1
    ∧ dt ∈ table_data_types_of
             [(demo_ownership, demo_table); (demo_ownership_b, demo_table_b)].
Proof.
  apply (synthesized_join_avoids_table_less_types
           [[("A", ["x"]); ("B", ["y"]); ("C", ["z"])]]
           [(demo_ownership, demo_table); (demo_ownership_b, demo_table_b)]
           [("A", VBool true); ("B", VBool true); ("C", VBool true)]
           (VList [VStr "#eq";
                   VList [VStr "#resolve"; VStr "A"; VStr "[item]"; VStr "x"];
                   VList [VStr "#resolve"; VStr "B"; VStr "[item]"; VStr "y"]])).
  - vm_compute. reflexivity.
  - simpl. left.
Defined.

Lemma run_returns_after_discovery
    WORKERS peer_get peer_post py_format discovery_schedule search_schedule
    dataset_object_schema dataset join_query data_type_queries
    include_internal_results o :
  run_search_on_dataset WORKERS peer_get peer_post py_format
    discovery_schedule search_schedule dataset_object_schema dataset
    join_query data_type_queries include_internal_results
  = Some (Ok o) →
  ∃ table_ownerships_and_records,
    _fetch_table_definition_worker WORKERS peer_get discovery_schedule
      (table_ownership dataset) [] []
    = Some (Ok table_ownerships_and_records).
Proof.
  unfold run_search_on_dataset.
  destruct (_fetch_table_definition_worker _ _ _ _ _ _) as [[tables|e]|];
    [eauto|discriminate|discriminate].
Qed.

(** X21: one failed table definition fetch fails the whole call: when the
    peer fails for a table of the dataset, the call does not return under
    any interleaving, not even through the short circuit of the exclusion
    loop. *)
Theorem failed_table_fetch_fails_call
    WORKERS peer_get peer_post py_format discovery_schedule search_schedule
    dataset_object_schema dataset join_query data_type_queries
    include_internal_results t e o :
  t ∈ table_ownership dataset →
  peer_get (table_path t) = Raise e →
  run_search_on_dataset WORKERS peer_get peer_post py_format
    discovery_schedule search_schedule dataset_object_schema dataset
    join_query data_type_queries include_internal_results
  ≠ Some (Ok o).
Proof.
  intros Hin Hfail Hrun.
  apply run_returns_after_discovery in Hrun as [tables Hdisc].
  apply discovery_pool_contents in Hdisc as [Hperm Hall].
  rewrite <- Hperm in Hin.
  apply list_elem_of_fmap in Hin as (tr & -> & Htr).
  rewrite Forall_forall in Hall. specialize (Hall tr Htr). congruence.
Qed.

Lemma failed_table_fetch_fails_call_witness :
  run_search_on_dataset 1 (λ _, Raise PeerFetchError) demo_peer_post format_str
    [Dequeue; Complete 0] [] ∅ demo_dataset VNone [("C", VInt 1)] false
  ≠ Some (Ok (outcome_of None)).
Proof.
  apply (failed_table_fetch_fails_call 1 (λ _, Raise PeerFetchError)
           demo_peer_post format_str [Dequeue; Complete 0] [] ∅ demo_dataset
           VNone [("C", VInt 1)] false demo_ownership PeerFetchError).
  - left.
  - reflexivity.
Defined.
